(** * Pipeline engine of reto_virgin_mobile: registry, loader and execution engine

    A shallow embedding of
      - src/pipeline_engine/pipeline_loader.py: [are_types_compatible]
        (module [Types]), [resolve_env_vars] (module [EnvVars]) and
        [instantiate_nodes] (module [Loader]);
      - src/pipeline_engine/NodesRegistry.py: [get_node_class] (module
        [Registry]);
      - src/pipeline_engine/NodesEngine.py: [Node.add_input] and
        [Node.add_output] (module [Loader]);
      - src/pipeline_engine/PipelineEngine.py: [run_node] and [run] (module
        [Engine]);
    together with the properties of the specification that concern them.

    Python dictionaries used as maps are stdpp [gmap]s; dictionaries whose
    iteration order is observable (the items of a result mapping, the
    [nodes] dictionary of the engine, the mappings of a document) are
    association lists in insertion order.  Exceptions are explicit results.
    Global and object state is passed explicitly. *)

From Stdlib Require Import String Ascii List Bool Arith Lia.
From stdpp Require Import base option list gmap strings fin_maps.

Open Scope string_scope.
Open Scope list_scope.

#[local] Set Warnings "-register-all".

(* ===================================================================== *)
(** * Edge type compatibility (pipeline_loader.py, [are_types_compatible]) *)
(* ===================================================================== *)

Module Types.

(** A declared type descriptor, as [typing] shows it to the loader:
    [Any], a plain class ([get_origin] is [None], [get_args] is [()]), or a
    generic alias such as [Dict[str, Any]] ([get_origin] is the outer class,
    [get_args] the ordered type arguments).  An attribute that is absent or
    [None] is [None : option ty]. *)
Inductive ty : Type :=
  | TyAny : ty
  | TyClass (cls : string) : ty
  | TyGeneric (origin : string) (args : list ty) : ty.

(** Python's [==] on descriptors: structural. *)
Fixpoint ty_eqb (a b : ty) {struct a} : bool :=
  match a, b with
  | TyAny, TyAny => true
  | TyClass c, TyClass d => bool_decide (c = d)
  | TyGeneric o xs, TyGeneric p ys =>
      bool_decide (o = p) &&
      (fix all2 (xs ys : list ty) {struct xs} : bool :=
         match xs, ys with
         | [], [] => true
         | x :: xs', y :: ys' => ty_eqb x y && all2 xs' ys'
         | _, _ => false
         end) xs ys
  | _, _ => false
  end.

(** [a is Any] *)
Definition is_any (a : ty) : bool :=
  match a with TyAny => true | _ => false end.

Definition get_origin (a : ty) : option string :=
  match a with TyGeneric o _ => Some o | _ => None end.

Definition get_args (a : ty) : list ty :=
  match a with TyGeneric _ args => args | _ => [] end.

(** [zip(args_out, args_in)]: stops at the shorter sequence. *)
Fixpoint zip (xs ys : list ty) : list (ty * ty) :=
  match xs, ys with
  | x :: xs', y :: ys' => (x, y) :: zip xs' ys'
  | _, _ => []
  end.

(** [all(a == b or b is Any or a is Any for a, b in zip(...))] *)
Definition args_compatible (args_out args_in : list ty) : bool :=
  forallb (fun '(a, b) => ty_eqb a b || is_any b || is_any a) (zip args_out args_in).

Definition are_types_compatible (output_type input_type : option ty) : bool :=
  match output_type, input_type with
  | Some TyAny, _ | _, Some TyAny => true          (* is Any *)
  | None, _ | _, None => true                      (* is None *)
  | Some o, Some i =>
      if ty_eqb o i then true
      else
        match get_origin o, get_origin i with
        | Some oo, Some oi =>
            if bool_decide (oo = oi)
            then args_compatible (get_args o) (get_args i)
            else false
        | _, _ => false
        end
  end.

(** The compatibility rule in the words of the specification (section 4.3.1). *)
Definition compatible_spec (output_type input_type : option ty) : Prop :=
  (output_type = None \/ input_type = None \/
   output_type = Some TyAny \/ input_type = Some TyAny)
  \/ output_type = input_type
  \/ (exists g args_out args_in,
        output_type = Some (TyGeneric g args_out) /\
        input_type = Some (TyGeneric g args_in) /\
        forall n a b, args_out !! n = Some a -> args_in !! n = Some b ->
                      a = b \/ a = TyAny \/ b = TyAny).

(** ** Structural equality decides Leibniz equality *)

Lemma ty_ind_nested (P : ty -> Prop) :
  P TyAny ->
  (forall c, P (TyClass c)) ->
  (forall o args, Forall P args -> P (TyGeneric o args)) ->
  forall t, P t.
Proof.
  intros HA HC HG.
  fix IH 1. intros [ | c | o args ].
  - exact HA.
  - apply HC.
  - apply HG. induction args as [ | x xs IHxs ]; constructor.
    + apply IH.
    + exact IHxs.
Qed.

Lemma ty_eqb_eq (a b : ty) : ty_eqb a b = true <-> a = b.
Proof.
  revert b. induction a as [ | c | o args IHargs ] using ty_ind_nested; intros b.
  - destruct b; simpl; split; (done || discriminate).
  - destruct b as [ | d | ]; simpl; try (split; (done || discriminate)).
    rewrite bool_decide_eq_true. split; congruence.
  - destruct b as [ | | p ys ]; simpl; try (split; (done || discriminate)).
    rewrite andb_true_iff, bool_decide_eq_true.
    assert (Hall : forall ys,
      (fix all2 (xs ys : list ty) {struct xs} : bool :=
         match xs, ys with
         | [], [] => true
         | x :: xs', y :: ys' => ty_eqb x y && all2 xs' ys'
         | _, _ => false
         end) args ys = true <-> args = ys).
    { clear ys. induction IHargs as [ | x xs Hx _ IHxs ]; intros [ | y ys ];
        try (split; (done || discriminate)).
      rewrite andb_true_iff, Hx, IHxs. split; [ intros [-> ->]; done | ].
      intros [= -> ->]; done. }
    rewrite Hall. split; [ intros [-> ->]; done | intros [= -> ->]; done ].
Qed.

Lemma ty_eqb_refl (a : ty) : ty_eqb a a = true.
Proof. by apply ty_eqb_eq. Qed.

Lemma is_any_eq (a : ty) : is_any a = true <-> a = TyAny.
Proof. destruct a; simpl; split; (done || discriminate). Qed.

Lemma zip_lookup (xs ys : list ty) (a b : ty) :
  (a, b) ∈ zip xs ys <-> exists n, xs !! n = Some a /\ ys !! n = Some b.
Proof.
  revert ys. induction xs as [ | x xs IH ]; intros ys.
  - simpl. split; [ intros H; inversion H | intros (n & H & _); destruct n; done ].
  - destruct ys as [ | y ys ]; simpl.
    + split; [ intros H; inversion H | intros (n & _ & H); destruct n; done ].
    + rewrite elem_of_cons, IH. split.
      * intros [ [= -> ->] | (n & H1 & H2) ]; [ by exists 0 | by exists (S n) ].
      * intros ([ | n ] & H1 & H2); simpl in *; [ left; congruence | right; eauto ].
Qed.

Lemma args_compatible_spec (args_out args_in : list ty) :
  args_compatible args_out args_in = true <->
  forall n a b, args_out !! n = Some a -> args_in !! n = Some b ->
                a = b \/ a = TyAny \/ b = TyAny.
Proof.
  unfold args_compatible. rewrite forallb_forall. split.
  - intros H n a b Ha Hb.
    specialize (H (a, b)). simpl in H.
    rewrite <- list_elem_of_In, zip_lookup in H.
    specialize (H (ex_intro _ n (conj Ha Hb))).
    rewrite !orb_true_iff, ty_eqb_eq, !is_any_eq in H. tauto.
  - intros H [a b] Hin. rewrite <- list_elem_of_In, zip_lookup in Hin.
    destruct Hin as (n & Ha & Hb).
    rewrite !orb_true_iff, ty_eqb_eq, !is_any_eq.
    specialize (H n a b Ha Hb). tauto.
Qed.

(** C6. The edge-type predicate of the loader answers "compatible" exactly
    when either side is absent or [Any], or both sides are equal, or both
    are generic with the same outer kind and every pair of corresponding
    type arguments is equal or has [Any] on one side; otherwise it answers
    "incompatible". *)
Theorem are_types_compatible_iff (output_type input_type : option ty) :
  (are_types_compatible output_type input_type = true <->
   compatible_spec output_type input_type) /\
  (are_types_compatible output_type input_type = false <->
   ~ compatible_spec output_type input_type).
Proof.
  assert (Hiff : are_types_compatible output_type input_type = true <->
                 compatible_spec output_type input_type).
  { unfold compatible_spec. split.
    - destruct output_type as [o | ], input_type as [i | ];
        try (intros _; left; tauto).
      simpl. destruct (ty_eqb o i) eqn:Heq.
      { apply ty_eqb_eq in Heq as ->. intros _. right; left; done. }
      destruct o as [ | c | g xs ], i as [ | d | h ys ]; simpl;
        try (intros _; left; tauto); try discriminate.
      case_bool_decide as Hg; [ subst h | discriminate ].
      rewrite args_compatible_spec. intros H.
      right; right. by exists g, xs, ys.
    - intros [ [-> | [-> | [-> | ->]]] | [ -> | (g & xs & ys & -> & -> & H) ] ].
      + by destruct input_type as [ [ | | ] | ].
      + by destruct output_type as [ [ | | ] | ].
      + by destruct input_type as [ [ | | ] | ].
      + by destruct output_type as [ [ | | ] | ].
      + destruct input_type as [ i | ]; [ | done ].
        simpl. rewrite ty_eqb_refl. by destruct i.
      + cbn [are_types_compatible get_origin get_args].
        destruct (ty_eqb _ _); [ done | ].
        rewrite bool_decide_true by done. by apply args_compatible_spec. }
  split; [ exact Hiff | ].
  rewrite <- Hiff. destruct (are_types_compatible output_type input_type); split; done.
Qed.

(** Scenario S6: [list<int>] against [list<string>]. *)
Example incompatible_arguments :
  are_types_compatible (Some (TyGeneric "list" [TyClass "int"]))
                       (Some (TyGeneric "list" [TyClass "str"])) = false.
Proof. reflexivity. Qed.

Example any_argument :
  are_types_compatible (Some (TyGeneric "dict" [TyClass "str"; TyAny]))
                       (Some (TyGeneric "dict" [TyClass "str"; TyClass "int"])) = true.
Proof. reflexivity. Qed.

(** Arguments are compared by equality, one level deep. *)
Example nested_any_argument :
  are_types_compatible (Some (TyGeneric "list" [TyGeneric "list" [TyAny]]))
                       (Some (TyGeneric "list" [TyGeneric "list" [TyClass "int"]])) = false.
Proof. reflexivity. Qed.

(** [zip] pairs the positions present on both sides. *)
Example fewer_arguments :
  are_types_compatible (Some (TyGeneric "tuple" [TyClass "int"]))
                       (Some (TyGeneric "tuple" [TyClass "int"; TyClass "str"])) = true.
Proof. reflexivity. Qed.

Example absent_side :
  are_types_compatible None (Some (TyClass "DataFrame")) = true.
Proof. reflexivity. Qed.

(** ** The predicate as a relation *)





End Types.

(* ===================================================================== *)
(** * Variable expansion (pipeline_loader.py, [resolve_env_vars])         *)
(* ===================================================================== *)

Module EnvVars.

(** Documents are modelled on the ASCII range, with the 8-bit characters
    of [string]: there [\w] is a letter, a digit or the underscore. *)
Definition is_word (c : ascii) : bool :=
  let n := nat_of_ascii c in
  (Nat.leb 48 n && Nat.leb n 57) || (Nat.leb 65 n && Nat.leb n 90) ||
  (Nat.leb 97 n && Nat.leb n 122) || Nat.eqb n 95.

(** The longest run of word characters at the start of [s], and what
    follows it. *)
Fixpoint span_word (s : string) : string * string :=
  match s with
  | String c s' =>
      if is_word c
      then let '(w, rest) := span_word s' in (String c w, rest)
      else (EmptyString, s)
  | EmptyString => (EmptyString, EmptyString)
  end.

(** One attempt of the pattern [\$\{(\w+)\}] at the start of [s]: the
    group and the text after the match.  [\w+] is greedy and what follows a
    shorter run is a word character, never the closing brace, so only the
    longest run can match. *)
Definition match_token (s : string) : option (string * string) :=
  match s with
  | String "$" (String "{" s') =>
      match span_word s' with
      | (String c w, String "}" rest) => Some (String c w, rest)
      | _ => None
      end
  | _ => None
  end.

(** [re.findall]: the groups of the matches, left to right, the scan
    resuming after each match.  Every step consumes a character, so the
    length of the string is fuel enough. *)
Fixpoint findall_from (fuel : nat) (s : string) : list string :=
  match fuel, s with
  | S fuel', String c s' =>
      match match_token s with
      | Some (name, rest) => name :: findall_from fuel' rest
      | None => findall_from fuel' s'
      end
  | _, _ => []
  end.

Definition findall (s : string) : list string :=
  findall_from (String.length s) s.

(** [s] without the prefix [p], when it starts with it. *)
Fixpoint strip_prefix (p s : string) : option string :=
  match p, s with
  | EmptyString, _ => Some s
  | String a p', String b s' => if Ascii.eqb a b then strip_prefix p' s' else None
  | String _ _, EmptyString => None
  end.

(** [s.replace(old, new)] for a non-empty [old]: every occurrence, left to
    right, without overlap. *)
Fixpoint replace_from (fuel : nat) (old new s : string) : string :=
  match fuel, s with
  | S fuel', String c s' =>
      match strip_prefix old s with
      | Some rest => (new ++ replace_from fuel' old new rest)%string
      | None => String c (replace_from fuel' old new s')
      end
  | _, _ => s
  end.

Definition replace (old new s : string) : string :=
  replace_from (String.length s) old new s.

(** [f"${{{var}}}"] *)
Definition token (var : string) : string :=
  String "$" (String "{" (var ++ "}"))%string.

(** The loader's logger is set, as main.py sets it, so line 75 does not
    fail before line 76 raises. *)
Inductive error : Type :=
  | UnresolvedVariable (var : string).   (* ValueError("Variable de entorno no definida") *)

(** The loop of lines 72-77 over the matches found in the original string. *)
Fixpoint substitute (environ : gmap string string) (matches : list string) (obj : string)
  : error + string :=
  match matches with
  | [] => inr obj
  | var :: rest =>
      match environ !! var with                       (* os.environ.get(var) *)
      | None => inl (UnresolvedVariable var)
      | Some env_value => substitute environ rest (replace (token var) env_value obj)
      end
  end.

(** A parsed document: a string, another scalar, a sequence or a mapping
    (its items in order). *)
Inductive yaml : Type :=
  | YStr (s : string)
  | YScalar (repr : string)
  | YList (items : list yaml)
  | YDict (items : list (string * yaml)).

(** A comprehension whose element expression may raise: the first
    exception ends it. *)
Definition comprehension {A B : Type} (f : A -> error + B) : list A -> error + list B :=
  fix each (items : list A) : error + list B :=
    match items with
    | [] => inr []
    | x :: rest =>
        match f x with
        | inl e => inl e
        | inr y =>
            match each rest with
            | inl e => inl e
            | inr ys => inr (y :: ys)
            end
        end
    end.

Fixpoint resolve_env_vars (environ : gmap string string) (obj : yaml) : error + yaml :=
  match obj with
  | YDict items =>
      (* {k: self.resolve_env_vars(v) for k, v in obj.items()} *)
      match
        comprehension
          (fun kv => match resolve_env_vars environ kv.2 with
                     | inl e => inl e
                     | inr v => inr (kv.1, v)
                     end) items
      with
      | inl e => inl e
      | inr items' => inr (YDict items')
      end
  | YList items =>
      (* [self.resolve_env_vars(i) for i in obj] *)
      match comprehension (resolve_env_vars environ) items with
      | inl e => inl e
      | inr items' => inr (YList items')
      end
  | YStr s =>
      match substitute environ (findall s) s with
      | inl e => inl e
      | inr s' => inr (YStr s')
      end
  | YScalar repr => inr (YScalar repr)
  end.

(** ** Notions of the specification *)

(** The string values of a document, mapping keys left out. *)
Fixpoint string_values (obj : yaml) : list string :=
  match obj with
  | YStr s => [s]
  | YScalar _ => []
  | YList items => flat_map string_values items
  | YDict items => flat_map (fun kv => string_values kv.2) items
  end.

(** Every string of a document, mapping keys included. *)
Fixpoint strings_of (obj : yaml) : list string :=
  match obj with
  | YStr s => [s]
  | YScalar _ => []
  | YList items => flat_map strings_of items
  | YDict items => flat_map (fun kv => kv.1 :: strings_of kv.2) items
  end.

(** [s] contains a token [${...}]. *)
Definition has_token (s : string) : Prop :=
  exists before inside after, s = before +:+ token inside +:+ after.

(** The document with [f] applied to its string values. *)
Fixpoint map_values (f : string -> string) (obj : yaml) : yaml :=
  match obj with
  | YStr s => YStr (f s)
  | YScalar repr => YScalar repr
  | YList items => YList (map (map_values f) items)
  | YDict items => YDict (map (fun kv => (kv.1, map_values f kv.2)) items)
  end.

(** The value of a variable; the empty string stands for an undefined one. *)
Definition value_of (environ : gmap string string) (var : string) : string :=
  default EmptyString (environ !! var).

(** What the loop of [resolve_env_vars] makes of a string when no variable
    is undefined: the replacements in the order of the matches. *)
Definition expanded (environ : gmap string string) (s : string) : string :=
  fold_left (fun obj var => replace (token var) (value_of environ var) obj)
            (findall s) s.

Fixpoint dollar_free (s : string) : bool :=
  match s with
  | EmptyString => true
  | String c s' => negb (Ascii.eqb c "$") && dollar_free s'
  end.

Fixpoint all_word (s : string) : bool :=
  match s with
  | EmptyString => true
  | String c s' => is_word c && all_word s'
  end.

(** A string seen as literal text and tokens. *)
Inductive segment : Type :=
  | Lit (text : string)
  | Tok (name : string).

Fixpoint render (segs : list segment) : string :=
  match segs with
  | [] => EmptyString
  | Lit text :: rest => text +:+ render rest
  | Tok name :: rest => token name +:+ render rest
  end.

(** The string with every token replaced by the value of its variable. *)
Fixpoint render_with (environ : gmap string string) (segs : list segment) : string :=
  match segs with
  | [] => EmptyString
  | Lit text :: rest => text +:+ render_with environ rest
  | Tok name :: rest => value_of environ name +:+ render_with environ rest
  end.

Definition names (segs : list segment) : list string :=
  omap (fun sg => match sg with Tok name => Some name | Lit _ => None end) segs.

(** Literal text has no [$]; a name is a non-empty run of word characters. *)
Definition well_formed (sg : segment) : Prop :=
  match sg with
  | Lit text => dollar_free text = true
  | Tok name => name <> EmptyString /\ all_word name = true
  end.

(** One replacement seen on the segments: the tokens of [var] become text. *)
Definition subst1 (var value : string) (segs : list segment) : list segment :=
  map (fun sg =>
         match sg with
         | Tok name => if decide (name = var) then Lit value else Tok name
         | Lit text => Lit text
         end) segs.

(** A string value all of whose [$] begin a token [${NAME}] with a
    defined variable whose value has no [$]. *)
Definition tidy (environ : gmap string string) (s : string) : Prop :=
  exists segs,
    s = render segs /\ Forall well_formed segs /\
    forall var, var ∈ names segs ->
                exists value, environ !! var = Some value /\ dollar_free value = true.

(** The second half of C5 as the specification states it, at one document:
    whenever the expansion returns, no string of the result has a token. *)
Definition expansion_total_at (environ : gmap string string) (obj : yaml) : Prop :=
  forall r, resolve_env_vars environ obj = inr r ->
            forall s, s ∈ strings_of r -> ~ has_token s.

(** ** The functions on examples *)

Example findall_two : findall "a ${X} b ${Y_1}${X}" = ["X"; "Y_1"; "X"].
Proof. reflexivity. Qed.

Example findall_not_word : findall "${a-b} ${} $X {Y} ${Z" = [].
Proof. reflexivity. Qed.

Example findall_nested : findall "${${A}}" = ["A"].
Proof. reflexivity. Qed.

Example replace_all : replace "${X}" "v" "${X}-${Y}-${X}" = "v-${Y}-v".
Proof. reflexivity. Qed.

Example resolve_S5 :
  resolve_env_vars {[ "API_KEY" := "abc" ]}
    (YDict [("key", YStr "${API_KEY}"); ("n", YScalar "3")])
  = inr (YDict [("key", YStr "abc"); ("n", YScalar "3")]).
Proof. reflexivity. Qed.

Example resolve_S5_unset :
  resolve_env_vars ∅ (YDict [("key", YStr "${API_KEY}")])
  = inl (UnresolvedVariable "API_KEY").
Proof. reflexivity. Qed.

Example resolve_leftovers :
  resolve_env_vars {[ "A" := "B" ]}
    (YList [YStr "${${A}}"; YStr "${a-b}"; YDict [("${A}", YStr "${A}")]])
  = inr (YList [YStr "${B}"; YStr "${a-b}"; YDict [("${A}", YStr "B")]]).
Proof. reflexivity. Qed.

(** ** Strings *)

Lemma append_cons (x : ascii) (a b : string) : String x a +:+ b = String x (a +:+ b).
Proof. reflexivity. Qed.

Lemma append_nil_l (a : string) : EmptyString +:+ a = a.
Proof. reflexivity. Qed.

Lemma append_assoc (a b c : string) : (a +:+ b) +:+ c = a +:+ (b +:+ c).
Proof.
  induction a as [ | x a IH ]; [ done | ].
  by rewrite !append_cons, IH.
Qed.


Lemma length_append (a b : string) :
  String.length (a +:+ b) = String.length a + String.length b.
Proof.
  induction a as [ | x a IH ]; [ done | ].
  rewrite append_cons. simpl. by rewrite IH.
Qed.

Lemma dollar_free_append (a b : string) :
  dollar_free (a +:+ b) = dollar_free a && dollar_free b.
Proof.
  induction a as [ | x a IH ]; [ done | ].
  rewrite append_cons. simpl. by rewrite IH, andb_assoc.
Qed.

Lemma is_word_not_dollar c : is_word c = true -> Ascii.eqb c "$" = false.
Proof. intros H. destruct (Ascii.eqb_spec c "$") as [ -> | ]; [ discriminate | done ]. Qed.

Lemma is_word_not_brace c : is_word c = true -> c <> "}"%char.
Proof. intros H ->. discriminate. Qed.

Lemma all_word_dollar_free s : all_word s = true -> dollar_free s = true.
Proof.
  induction s as [ | c s IH ]; [ done | ].
  cbn [all_word dollar_free].
  intros [Hc Hs]%andb_true_iff. by rewrite (is_word_not_dollar c Hc), IH.
Qed.

Lemma strip_prefix_length p s rest :
  strip_prefix p s = Some rest ->
  String.length s = String.length p + String.length rest.
Proof.
  revert s. induction p as [ | a p IH ]; intros s; cbn [strip_prefix String.length].
  - by intros [= ->].
  - destruct s as [ | b s ]; [ discriminate | ].
    destruct (Ascii.eqb a b); [ | discriminate ].
    intros H. cbn [String.length]. by rewrite (IH _ H).
Qed.

Lemma strip_prefix_append p s : strip_prefix p (p +:+ s) = Some s.
Proof.
  induction p as [ | a p IH ]; [ done | ].
  rewrite append_cons. cbn [strip_prefix]. by rewrite Ascii.eqb_refl.
Qed.

Lemma strip_prefix_token_literal var c s :
  Ascii.eqb c "$" = false -> strip_prefix (token var) (String c s) = None.
Proof. intros Hc. unfold token. cbn [strip_prefix]. by rewrite eqb_sym, Hc. Qed.

Lemma strip_prefix_names a x s :
  all_word a = true -> all_word x = true -> a <> x ->
  strip_prefix (a +:+ "}") (x +:+ String "}" s) = None.
Proof.
  revert x. induction a as [ | c a IH ]; intros x Ha Hx Hne.
  - destruct x as [ | d x ]; [ done | ].
    cbn [all_word] in Hx. apply andb_true_iff in Hx as [Hd _].
    rewrite append_nil_l, append_cons. cbn [strip_prefix].
    destruct (Ascii.eqb_spec "}" d) as [ <- | ]; [ discriminate | done ].
  - cbn [all_word] in Ha. apply andb_true_iff in Ha as [Hc Ha].
    rewrite append_cons.
    destruct x as [ | d x ].
    + rewrite append_nil_l. cbn [strip_prefix].
      destruct (Ascii.eqb_spec c "}") as [ -> | ]; [ discriminate | done ].
    + cbn [all_word] in Hx. apply andb_true_iff in Hx as [Hd Hx].
      rewrite append_cons. cbn [strip_prefix].
      destruct (Ascii.eqb_spec c d) as [ -> | ]; [ | done ].
      apply IH; [ done .. | congruence ].
Qed.

(** ** [replace] *)

Lemma replace_from_fuel old new :
  old <> EmptyString ->
  forall n fuel1 fuel2 s,
    String.length s <= n -> String.length s <= fuel1 -> String.length s <= fuel2 ->
    replace_from fuel1 old new s = replace_from fuel2 old new s.
Proof.
  intros Hold. induction n as [ | n IH ]; intros fuel1 fuel2 s Hn H1 H2.
  - destruct s; [ | simpl in Hn; lia ]. by destruct fuel1, fuel2.
  - destruct s as [ | c s ]; [ by destruct fuel1, fuel2 | ].
    simpl in *. destruct fuel1 as [ | fuel1 ], fuel2 as [ | fuel2 ]; try lia.
    simpl. destruct (strip_prefix old (String c s)) as [ rest | ] eqn:Hp.
    + apply strip_prefix_length in Hp. simpl in Hp.
      assert (0 < String.length old) by (destruct old; [ done | simpl; lia ]).
      f_equal. apply IH; lia.
    + f_equal. apply IH; lia.
Qed.

Lemma replace_cons old new c s :
  old <> EmptyString ->
  replace old new (String c s) =
  match strip_prefix old (String c s) with
  | Some rest => new +:+ replace old new rest
  | None => String c (replace old new s)
  end.
Proof.
  intros Hold. unfold replace. cbn [String.length replace_from].
  destruct (strip_prefix old (String c s)) as [ rest | ] eqn:Hp.
  - apply strip_prefix_length in Hp. simpl in Hp.
    assert (0 < String.length old) by (destruct old; [ done | simpl; lia ]).
    f_equal. apply (replace_from_fuel old new Hold (String.length s)); lia.
  - done.
Qed.

Lemma token_nonempty var : token var <> EmptyString.
Proof. done. Qed.

Lemma replace_literal var value text s :
  dollar_free text = true ->
  replace (token var) value (text +:+ s) = text +:+ replace (token var) value s.
Proof.
  induction text as [ | c text IH ]; [ done | ].
  cbn [dollar_free]. intros [Hc Ht]%andb_true_iff. apply negb_true_iff in Hc.
  rewrite !append_cons, replace_cons by apply token_nonempty.
  rewrite strip_prefix_token_literal by done. by rewrite IH.
Qed.

Lemma replace_token_same var value s :
  replace (token var) value (token var +:+ s) = value +:+ replace (token var) value s.
Proof.
  change (token var +:+ s) with (String "$" (String "{" ((var +:+ "}") +:+ s))).
  rewrite replace_cons by apply token_nonempty.
  change (String "$" (String "{" ((var +:+ "}") +:+ s))) with (token var +:+ s).
  by rewrite strip_prefix_append.
Qed.

Lemma replace_token_other var value name s :
  all_word var = true -> all_word name = true -> var <> name ->
  replace (token var) value (token name +:+ s) =
  token name +:+ replace (token var) value s.
Proof.
  intros Hvar Hname Hne.
  change (token name +:+ s) with (String "$" (String "{" ((name +:+ "}") +:+ s))).
  rewrite replace_cons by apply token_nonempty.
  assert (Hp : strip_prefix (token var) (String "$" (String "{" ((name +:+ "}") +:+ s)))
               = None).
  { unfold token. cbn [strip_prefix]. rewrite !Ascii.eqb_refl, append_assoc.
    by apply strip_prefix_names. }
  rewrite Hp.
  change (String "{" ((name +:+ "}") +:+ s)) with ((String "{" (name +:+ "}")) +:+ s).
  rewrite replace_literal; [ done | ].
  cbn [dollar_free]. rewrite dollar_free_append, (all_word_dollar_free name Hname). done.
Qed.

(** ** [findall] *)

Lemma span_word_length s :
  String.length s = String.length (span_word s).1 + String.length (span_word s).2.
Proof.
  induction s as [ | c s IH ]; [ done | ].
  cbn [span_word]. destruct (is_word c); [ | done ].
  destruct (span_word s) as [ w rest ]. simpl in *. by rewrite IH.
Qed.

Lemma span_word_name name s :
  all_word name = true ->
  span_word (name +:+ String "}" s) = (name, String "}" s).
Proof.
  induction name as [ | c name IH ]; [ done | ].
  cbn [all_word]. intros [Hc Hname]%andb_true_iff.
  rewrite append_cons. cbn [span_word]. by rewrite Hc, IH.
Qed.

Lemma match_token_token name s :
  name <> EmptyString -> all_word name = true ->
  match_token (token name +:+ s) = Some (name, s).
Proof.
  intros Hne Hname.
  change (token name +:+ s) with (String "$" (String "{" ((name +:+ "}") +:+ s))).
  cbn [match_token]. rewrite append_assoc.
  change ("}" +:+ s) with (String "}" s).
  rewrite span_word_name by done. by destruct name.
Qed.

Lemma match_token_literal c s : Ascii.eqb c "$" = false -> match_token (String c s) = None.
Proof.
  intros Hc. destruct (Ascii.eqb_spec c "$") as [ | Hne ]; [ discriminate | ].
  unfold match_token.
  destruct c as [ [ | ] [ | ] [ | ] [ | ] [ | ] [ | ] [ | ] [ | ] ]; try done.
Qed.

Lemma match_token_length s name rest :
  match_token s = Some (name, rest) -> String.length rest < String.length s.
Proof.
  unfold match_token.
  destruct s as [ | c s ]; [ discriminate | ].
  destruct s as [ | d s ];
    [ destruct c as [ [ | ] [ | ] [ | ] [ | ] [ | ] [ | ] [ | ] [ | ] ]; discriminate | ].
  pose proof (span_word_length s) as Hlen.
  destruct (span_word s) as [ w r ]. simpl in Hlen.
  destruct c as [ [ | ] [ | ] [ | ] [ | ] [ | ] [ | ] [ | ] [ | ] ]; try discriminate.
  destruct d as [ [ | ] [ | ] [ | ] [ | ] [ | ] [ | ] [ | ] [ | ] ]; try discriminate.
  destruct w as [ | x w ]; [ discriminate | ].
  destruct r as [ | y r ]; [ discriminate | ].
  destruct y as [ [ | ] [ | ] [ | ] [ | ] [ | ] [ | ] [ | ] [ | ] ]; try discriminate.
  intros [= _ <-]. simpl in *. lia.
Qed.

Lemma findall_from_fuel n :
  forall fuel1 fuel2 s,
    String.length s <= n -> String.length s <= fuel1 -> String.length s <= fuel2 ->
    findall_from fuel1 s = findall_from fuel2 s.
Proof.
  induction n as [ | n IH ]; intros fuel1 fuel2 s Hn H1 H2.
  - destruct s; [ | simpl in Hn; lia ]. by destruct fuel1, fuel2.
  - destruct s as [ | c s ]; [ by destruct fuel1, fuel2 | ].
    cbn [String.length] in *.
    destruct fuel1 as [ | fuel1 ], fuel2 as [ | fuel2 ]; try lia.
    cbn [findall_from].
    destruct (match_token (String c s)) as [ [name rest] | ] eqn:Hm.
    + apply match_token_length in Hm. cbn [String.length] in Hm.
      f_equal. apply IH; lia.
    + apply IH; lia.
Qed.

Lemma findall_cons c s :
  findall (String c s) =
  match match_token (String c s) with
  | Some (name, rest) => name :: findall rest
  | None => findall s
  end.
Proof.
  unfold findall. cbn [String.length findall_from].
  destruct (match_token (String c s)) as [ [name rest] | ] eqn:Hm; [ | done ].
  apply match_token_length in Hm. cbn [String.length] in Hm.
  f_equal. apply (findall_from_fuel (String.length s)); lia.
Qed.

Lemma findall_literal text s :
  dollar_free text = true -> findall (text +:+ s) = findall s.
Proof.
  induction text as [ | c text IH ]; [ done | ].
  cbn [dollar_free]. intros [Hc Ht]%andb_true_iff. apply negb_true_iff in Hc.
  rewrite append_cons, findall_cons, match_token_literal by done. by apply IH.
Qed.

Lemma findall_token name s :
  name <> EmptyString -> all_word name = true ->
  findall (token name +:+ s) = name :: findall s.
Proof.
  intros Hne Hname.
  pose proof (match_token_token name s Hne Hname) as Hm.
  change (token name +:+ s) with (String "$" (String "{" ((name +:+ "}") +:+ s))) in *.
  by rewrite findall_cons, Hm.
Qed.

Lemma findall_render segs :
  Forall well_formed segs -> findall (render segs) = names segs.
Proof.
  induction 1 as [ | [ text | name ] segs Hwf _ IH ]; [ done | | ]; cbn [render names omap].
  - rewrite findall_literal by done. exact IH.
  - destruct Hwf as [Hne Hname]. rewrite findall_token by done.
    unfold names in IH. by rewrite IH.
Qed.

(** ** Replacing the tokens of a well-formed string *)

Lemma replace_empty old new : replace old new EmptyString = EmptyString.
Proof. done. Qed.

Lemma replace_render var value segs :
  Forall well_formed segs -> all_word var = true ->
  replace (token var) value (render segs) = render (subst1 var value segs).
Proof.
  intros Hwf Hvar.
  induction Hwf as [ | [ text | name ] segs Hsg _ IH ]; [ done | | ];
    cbn [render subst1 map].
  - rewrite replace_literal by done. unfold subst1 in IH. by rewrite IH.
  - destruct Hsg as [Hne Hname]. case_decide as Heq.
    + subst name. rewrite replace_token_same. cbn [render].
      unfold subst1 in IH. by rewrite IH.
    + rewrite replace_token_other by done. cbn [render].
      unfold subst1 in IH. by rewrite IH.
Qed.

Lemma subst1_well_formed var value segs :
  dollar_free value = true -> Forall well_formed segs ->
  Forall well_formed (subst1 var value segs).
Proof.
  intros Hv Hwf. unfold subst1. apply Forall_fmap.
  eapply Forall_impl; [ exact Hwf | ].
  intros [ text | name ] Hsg; simpl; [ done | ]. by case_decide.
Qed.

Lemma subst1_names var value segs n :
  n ∈ names (subst1 var value segs) -> n ∈ names segs /\ n <> var.
Proof.
  unfold names, subst1. rewrite !list_elem_of_omap.
  intros (sg & Hin & Hsg). apply list_elem_of_fmap in Hin as (sg0 & -> & Hin0).
  destruct sg0 as [ text | name ]; [ discriminate | ].
  case_decide; [ discriminate | ]. injection Hsg as <-.
  split; [ | done ]. by exists (Tok name).
Qed.

Lemma subst1_render_with environ var segs :
  render_with environ (subst1 var (value_of environ var) segs) = render_with environ segs.
Proof.
  induction segs as [ | [ text | name ] segs IH ]; [ done | | ];
    cbn [subst1 map render_with]; unfold subst1 in IH.
  - by rewrite IH.
  - case_decide; subst; cbn [render_with]; by rewrite IH.
Qed.

Lemma render_no_tokens environ segs :
  names segs = [] -> render segs = render_with environ segs.
Proof.
  induction segs as [ | [ text | name ] segs IH ]; [ done | | ];
    cbn [names omap render render_with].
  - intros H. by rewrite IH.
  - discriminate.
Qed.

Lemma fold_replace_render environ vars :
  forall segs,
    Forall well_formed segs ->
    (forall v, v ∈ vars -> all_word v = true /\ dollar_free (value_of environ v) = true) ->
    (forall n, n ∈ names segs -> n ∈ vars) ->
    fold_left (fun obj var => replace (token var) (value_of environ var) obj)
              vars (render segs)
    = render_with environ segs.
Proof.
  induction vars as [ | v vars IH ]; intros segs Hwf Hvars Hnames; cbn [fold_left].
  - apply render_no_tokens. destruct (names segs) as [ | n ns ]; [ done | ].
    specialize (Hnames n (list_elem_of_here _ _)). by apply elem_of_nil in Hnames.
  - destruct (Hvars v (list_elem_of_here _ _)) as [Hv Hval].
    rewrite replace_render by done.
    rewrite IH.
    + apply subst1_render_with.
    + by apply subst1_well_formed.
    + intros v' Hv'. apply Hvars. by right.
    + intros n Hn. apply subst1_names in Hn as [Hn Hne].
      apply Hnames in Hn. apply elem_of_cons in Hn as [ -> | ]; done.
Qed.

Lemma render_with_dollar_free environ segs :
  Forall well_formed segs ->
  (forall n, n ∈ names segs -> dollar_free (value_of environ n) = true) ->
  dollar_free (render_with environ segs) = true.
Proof.
  induction 1 as [ | [ text | name ] segs Hsg _ IH ]; intros Hvals; [ done | | ];
    cbn [render_with]; rewrite dollar_free_append.
  - rewrite IH by done. by rewrite Hsg.
  - rewrite IH.
    + rewrite Hvals; [ done | ]. unfold names. cbn [omap]. by left.
    + intros n Hn. apply Hvals. unfold names. cbn [omap]. by right.
Qed.

(** ** The loop over the matches *)

Lemma substitute_inr environ vars :
  forall s r,
    substitute environ vars s = inr r ->
    r = fold_left (fun obj var => replace (token var) (value_of environ var) obj) vars s.
Proof.
  induction vars as [ | v vars IH ]; intros s r; cbn [substitute fold_left].
  - by intros [= <-].
  - destruct (environ !! v) as [ value | ] eqn:Hv; [ | discriminate ].
    assert (Hval : value_of environ v = value) by (unfold value_of; by rewrite Hv).
    rewrite Hval. apply IH.
Qed.

Lemma substitute_inl environ vars :
  forall s,
    (exists e, substitute environ vars s = inl e) <->
    exists v, v ∈ vars /\ environ !! v = None.
Proof.
  induction vars as [ | v vars IH ]; intros s; cbn [substitute].
  - split; [ by intros [e ?] | intros (v & Hv & _); by apply elem_of_nil in Hv ].
  - destruct (environ !! v) as [ value | ] eqn:Hv.
    + rewrite IH. split.
      * intros (x & Hx & Hnone). exists x. split; [ by right | done ].
      * intros (x & Hx & Hnone). apply elem_of_cons in Hx as [ -> | Hx ]; [ congruence | ].
        by exists x.
    + split; [ | by eauto ]. intros _. exists v. split; [ by left | done ].
Qed.

(** ** The traversal *)

Lemma yaml_ind_nested (P : yaml -> Prop) :
  (forall s, P (YStr s)) ->
  (forall repr, P (YScalar repr)) ->
  (forall items, Forall P items -> P (YList items)) ->
  (forall items, Forall (fun kv => P kv.2) items -> P (YDict items)) ->
  forall obj, P obj.
Proof.
  intros HS HC HL HD. fix IH 1. intros [ s | repr | items | items ].
  - apply HS.
  - apply HC.
  - apply HL. induction items as [ | x xs IHxs ]; constructor; [ apply IH | exact IHxs ].
  - apply HD. induction items as [ | [k v] xs IHxs ]; constructor; [ apply IH | exact IHxs ].
Qed.

Lemma comprehension_inr {A B : Type} (f : A -> error + B) (g : A -> B) items ys :
  Forall (fun x => forall y, f x = inr y -> y = g x) items ->
  comprehension f items = inr ys -> ys = map g items.
Proof.
  intros Hall. revert ys. induction Hall as [ | x xs Hx _ IH ]; intros ys; cbn [comprehension map].
  - by intros [= <-].
  - destruct (f x) as [ e | y ] eqn:Hfx; [ discriminate | ].
    fold (comprehension f) in *.
    destruct (comprehension f xs) as [ e | ys' ]; [ discriminate | ].
    intros [= <-]. by rewrite (Hx y eq_refl), (IH ys' eq_refl).
Qed.

Lemma comprehension_inl {A B : Type} (f : A -> error + B) items :
  (exists e, comprehension f items = inl e) <->
  exists x, x ∈ items /\ exists e, f x = inl e.
Proof.
  induction items as [ | x xs IH ]; cbn [comprehension].
  - split; [ by intros [e ?] | intros (x & Hx & _); by apply elem_of_nil in Hx ].
  - fold (comprehension f) in *. destruct (f x) as [ e | y ] eqn:Hfx.
    + split; [ | by eauto ]. intros _. exists x. split; [ by left | by eauto ].
    + split.
      * intros [e He]. destruct (comprehension f xs) as [ e' | ys ]; [ | discriminate ].
        destruct (proj1 IH (ex_intro _ e' eq_refl)) as (x' & Hx' & Hfx').
        exists x'. split; [ by right | done ].
      * intros (x' & Hx' & e & Hfx').
        apply elem_of_cons in Hx' as [ -> | Hx' ]; [ congruence | ].
        destruct (proj2 IH (ex_intro _ x' (conj Hx' (ex_intro _ e Hfx')))) as [e' He'].
        rewrite He'. by eauto.
Qed.

Lemma resolve_env_vars_inr environ obj :
  forall r, resolve_env_vars environ obj = inr r ->
            r = map_values (expanded environ) obj.
Proof.
  induction obj as [ s | repr | items IH | items IH ] using yaml_ind_nested;
    intros r; cbn [resolve_env_vars map_values].
  - destruct (substitute environ (findall s) s) as [ e | s' ] eqn:Hs; [ discriminate | ].
    intros [= <-]. by rewrite (substitute_inr _ _ _ _ Hs).
  - by intros [= <-].
  - destruct (comprehension _ items) as [ e | items' ] eqn:Hc; [ discriminate | ].
    intros [= <-]. f_equal. eapply comprehension_inr; [ | exact Hc ]. exact IH.
  - destruct (comprehension _ items) as [ e | items' ] eqn:Hc; [ discriminate | ].
    intros [= <-]. f_equal. eapply comprehension_inr; [ | exact Hc ].
    eapply Forall_impl; [ exact IH | ]. intros [k v] Hv y. simpl in *.
    destruct (resolve_env_vars environ v) as [ e | v' ]; [ discriminate | ].
    intros [= <-]. by rewrite (Hv v' eq_refl).
Qed.

Lemma resolve_env_vars_inl environ obj :
  (exists e, resolve_env_vars environ obj = inl e) <->
  exists s var, s ∈ string_values obj /\ var ∈ findall s /\ environ !! var = None.
Proof.
  induction obj as [ s | repr | items IH | items IH ] using yaml_ind_nested;
    cbn [resolve_env_vars string_values].
  - destruct (substitute environ (findall s) s) as [ e | s' ] eqn:Hs.
    + split; [ | by eauto ]. intros _.
      destruct (proj1 (substitute_inl environ (findall s) s) (ex_intro _ e Hs))
        as (var & Hvar & Hnone).
      exists s, var. split; [ by left | done ].
    + split; [ by intros [e ?] | ].
      intros (s0 & var & Hin & Hvar & Hnone).
      apply list_elem_of_singleton in Hin as ->.
      destruct (proj2 (substitute_inl environ (findall s) s)
                  (ex_intro _ var (conj Hvar Hnone))) as [e He].
      congruence.
  - split; [ by intros [e ?] | ]. intros (s & var & Hin & _). by apply elem_of_nil in Hin.
  - assert (Hc : (exists e, comprehension (resolve_env_vars environ) items = inl e) <->
                 exists s var, s ∈ flat_map string_values items /\
                               var ∈ findall s /\ environ !! var = None).
    { rewrite comprehension_inl. split.
      - intros (x & Hx & Hex). rewrite Forall_forall in IH.
        apply (IH x Hx) in Hex as (s & var & Hs & Hvar & Hnone).
        exists s, var. split; [ | done ].
        apply list_elem_of_In, in_flat_map. exists x.
        split; by apply list_elem_of_In.
      - intros (s & var & Hs & Hvar & Hnone).
        apply list_elem_of_In, in_flat_map in Hs as (x & Hx & Hs).
        apply list_elem_of_In in Hx, Hs. exists x. split; [ done | ].
        rewrite Forall_forall in IH. apply (IH x Hx). by exists s, var. }
    rewrite <- Hc.
    destruct (comprehension _ items) as [ e | items' ]; split; try by eauto.
    all: by intros [e ?].
  - set (f := fun kv : string * yaml =>
                match resolve_env_vars environ kv.2 with
                | inl e => inl e
                | inr v => inr (kv.1, v)
                end).
    assert (Hc : (exists e, comprehension f items = inl e) <->
                 exists s var, s ∈ flat_map (fun kv => string_values kv.2) items /\
                               var ∈ findall s /\ environ !! var = None).
    { rewrite comprehension_inl. split.
      - intros (x & Hx & e & Hex). rewrite Forall_forall in IH.
        assert (Hex' : exists e, resolve_env_vars environ x.2 = inl e).
        { unfold f in Hex. destruct (resolve_env_vars environ x.2); [ by eauto | discriminate ]. }
        apply (IH x Hx) in Hex' as (s & var & Hs & Hvar & Hnone).
        exists s, var. split; [ | done ].
        apply list_elem_of_In, in_flat_map. exists x.
        split; by apply list_elem_of_In.
      - intros (s & var & Hs & Hvar & Hnone).
        apply list_elem_of_In, in_flat_map in Hs as (x & Hx & Hs).
        apply list_elem_of_In in Hx, Hs. exists x. split; [ done | ].
        rewrite Forall_forall in IH.
        destruct (proj2 (IH x Hx) (ex_intro _ s (ex_intro _ var (conj Hs (conj Hvar Hnone)))))
          as [e He].
        exists e. unfold f. by rewrite He. }
    rewrite <- Hc.
    destruct (comprehension f items) as [ e | items' ]; split; try by eauto.
    all: by intros [e ?].
Qed.

Lemma string_values_map_values f obj :
  string_values (map_values f obj) = map f (string_values obj).
Proof.
  induction obj as [ s | repr | items IH | items IH ] using yaml_ind_nested;
    cbn [map_values string_values]; try done.
  - induction IH as [ | x xs Hx _ IHxs ]; [ done | ].
    cbn [map flat_map]. by rewrite map_app, Hx, IHxs.
  - induction IH as [ | [k v] xs Hx _ IHxs ]; [ done | ].
    cbn [map flat_map fst snd] in *. by rewrite map_app, Hx, IHxs.
Qed.

Lemma names_well_formed segs var :
  Forall well_formed segs -> var ∈ names segs ->
  var <> EmptyString /\ all_word var = true.
Proof.
  intros Hwf Hvar. unfold names in Hvar. apply list_elem_of_omap in Hvar as (sg & Hin & Hsg).
  rewrite Forall_forall in Hwf. specialize (Hwf sg Hin).
  destruct sg as [ text | name ]; [ discriminate | ]. injection Hsg as <-. exact Hwf.
Qed.

Lemma expanded_render environ segs :
  Forall well_formed segs ->
  (forall var, var ∈ names segs ->
               exists value, environ !! var = Some value /\ dollar_free value = true) ->
  expanded environ (render segs) = render_with environ segs.
Proof.
  intros Hwf Hvars. unfold expanded. rewrite findall_render by done.
  apply fold_replace_render; [ done | | done ].
  intros v Hv. split; [ by eapply names_well_formed | ].
  destruct (Hvars v Hv) as (value & Hval & Hfree). unfold value_of. by rewrite Hval.
Qed.

(** C5 (amended). Phase 2 raises [UnresolvedVariable] exactly when a
    string value (mapping keys are not examined) contains a token
    [${NAME}], [NAME] a non-empty run of word characters found by one scan
    of the original string, whose variable is undefined.  When it returns,
    keys and other scalars are unchanged and every string value is the
    original with, for each [NAME] in scan order, all occurrences of
    [${NAME}] replaced by the value.  A string value all of whose [$] begin
    such tokens, the values having no [$], comes out with each token
    replaced by its value and without [$]; a document of such string values
    is expanded without error and no string value of the result has a
    [$]. *)
Theorem resolve_env_vars_expansion environ obj :
  ((exists e, resolve_env_vars environ obj = inl e) <->
   exists s var, s ∈ string_values obj /\ var ∈ findall s /\ environ !! var = None) /\
  (forall r, resolve_env_vars environ obj = inr r ->
             r = map_values (expanded environ) obj) /\
  (forall segs,
     Forall well_formed segs ->
     (forall var, var ∈ names segs ->
                  exists value, environ !! var = Some value /\ dollar_free value = true) ->
     resolve_env_vars environ (YStr (render segs)) = inr (YStr (render_with environ segs)) /\
     dollar_free (render_with environ segs) = true) /\
  ((forall s, s ∈ string_values obj -> tidy environ s) ->
   exists r, resolve_env_vars environ obj = inr r /\
             forall s, s ∈ string_values r -> dollar_free s = true).
Proof.
  assert (Hvalues : forall segs,
    Forall well_formed segs ->
    (forall var, var ∈ names segs ->
                 exists value, environ !! var = Some value /\ dollar_free value = true) ->
    forall n, n ∈ names segs -> dollar_free (value_of environ n) = true).
  { intros segs Hwf Hvars n Hn. destruct (Hvars n Hn) as (value & Hval & Hfree).
    unfold value_of. by rewrite Hval. }
  assert (Hdefined : forall o,
    (forall s, s ∈ string_values o -> tidy environ s) ->
    exists r, resolve_env_vars environ o = inr r).
  { intros o Htidy. destruct (resolve_env_vars environ o) as [ e | r ] eqn:Hres; [ | by eauto ].
    destruct (proj1 (resolve_env_vars_inl environ o) (ex_intro _ e Hres))
      as (s & var & Hs & Hvar & Hnone).
    destruct (Htidy s Hs) as (segs & -> & Hwf & Hvars).
    rewrite findall_render in Hvar by done.
    destruct (Hvars var Hvar) as (value & Hval & _). congruence. }
  split; [ apply resolve_env_vars_inl | ].
  split; [ apply resolve_env_vars_inr | ].
  split.
  - intros segs Hwf Hvars. split; [ | by eapply render_with_dollar_free, Hvalues ].
    destruct (Hdefined (YStr (render segs))) as [r Hr].
    { intros s Hs. apply list_elem_of_singleton in Hs as ->. by exists segs. }
    rewrite Hr. apply resolve_env_vars_inr in Hr as ->.
    cbn [map_values]. by rewrite expanded_render.
  - intros Htidy. destruct (Hdefined obj Htidy) as [r Hr]. exists r. split; [ done | ].
    apply resolve_env_vars_inr in Hr as ->.
    intros s Hs. rewrite string_values_map_values in Hs.
    apply list_elem_of_fmap in Hs as (s0 & -> & Hs0).
    destruct (Htidy s0 Hs0) as (segs & -> & Hwf & Hvars).
    rewrite expanded_render by done. by eapply render_with_dollar_free, Hvalues.
Qed.

(** The expansion returns and leaves a token: the nested reference
    [${${A}}] becomes [${B}], and [B] is not even defined. *)
Lemma expansion_leaves_token :
  resolve_env_vars {[ "A" := "B" ]} (YStr "${${A}}") = inr (YStr "${B}") /\
  ({[ "A" := "B" ]} : gmap string string) !! "B" = None /\
  ~ expansion_total_at {[ "A" := "B" ]} (YStr "${${A}}").
Proof.
  split; [ reflexivity | ]. split; [ reflexivity | ].
  intros Htotal. apply (Htotal (YStr "${B}") eq_refl "${B}").
  - by left.
  - by exists EmptyString, "B", EmptyString.
Qed.

Lemma resolve_env_vars_expansion_witness :
  resolve_env_vars {[ "API_KEY" := "abc" ]} (YStr "key=${API_KEY};")
    = inr (YStr "key=abc;") /\
  dollar_free "key=abc;" = true.
Proof.
  change (resolve_env_vars {[ "API_KEY" := "abc" ]}
            (YStr (render [Lit "key="; Tok "API_KEY"; Lit ";"]))
          = inr (YStr (render_with {[ "API_KEY" := "abc" ]}
                         [Lit "key="; Tok "API_KEY"; Lit ";"])) /\
          dollar_free (render_with {[ "API_KEY" := "abc" ]}
                         [Lit "key="; Tok "API_KEY"; Lit ";"]) = true).
  apply (proj1 (proj2 (proj2 (resolve_env_vars_expansion
                                {[ "API_KEY" := "abc" ]} (YScalar "1"))))
           [Lit "key="; Tok "API_KEY"; Lit ";"]).
  - repeat constructor; done.
  - intros var Hvar. apply list_elem_of_singleton in Hvar as ->.
    exists "abc". by split.
Defined.

(** ** More on the expansion *)





















End EnvVars.

(* ===================================================================== *)
(** * Node registry (NodesRegistry.py, [get_node_class])                  *)
(* ===================================================================== *)

Module Registry.

(** A Python object as the registry sees it: a class ([isinstance(o, type)])
    or anything else (an instance, a function, [None], ...).  The string
    is the identity of the object. *)
Inductive pyobj : Type :=
  | ObjClass (id : string)
  | ObjOther (id : string).

#[global] Instance pyobj_eq_dec : EqDecision pyobj.
Proof. solve_decision. Defined.

(** [isinstance(o, type)] *)
Definition is_class (o : pyobj) : bool :=
  match o with ObjClass _ => true | ObjOther _ => false end.

(** What a resolution can raise.  The first two are the exceptions of
    [get_node_class] itself ([ValueError], [TypeError]); the other two come
    from [importlib.import_module] and [getattr]. *)
Inductive error : Type :=
  | UnknownNodeType        (* ValueError("Tipo de nodo no soportado") *)
  | InvalidNodeBinding     (* TypeError("... no es una clase válida") *)
  | ModuleNotFound         (* raised by importlib.import_module *)
  | AttributeMissing.      (* raised by getattr(module, node_type) *)

(** The importable modules: module path to the attributes of the module. *)
Definition modules := gmap string (gmap string pyobj).

Section Resolution.

(** [NODE_MODULES], filled once by [discover_node_modules], and the modules
    that [importlib] can load. *)
Variable NODE_MODULES : gmap string string.
Variable importable : modules.

(** [get_node_class(node_type)], threading the global [NODE_CLASSES]. *)
Definition get_node_class (node_type : string) (NODE_CLASSES : gmap string pyobj)
  : (error + pyobj) * gmap string pyobj :=
  let cached := NODE_CLASSES !! node_type in          (* NODE_CLASSES.get(node_type) *)
  match cached with
  | Some (ObjClass c) => (inr (ObjClass c), NODE_CLASSES)
  | _ =>                                               (* cls is None or not a type *)
      match NODE_MODULES !! node_type with
      | None => (inl UnknownNodeType, NODE_CLASSES)
      | Some module_name =>
          match importable !! module_name with
          | None => (inl ModuleNotFound, NODE_CLASSES)
          | Some module =>
              match module !! node_type with
              | None => (inl AttributeMissing, NODE_CLASSES)
              | Some cls =>
                  if is_class cls
                  then (inr cls, <[node_type := cls]> NODE_CLASSES)
                  else (inl InvalidNodeBinding, NODE_CLASSES)
              end
          end
      end
  end.

(** The live cache only ever holds classes: it starts empty and line 72 is
    its only writer. *)
Definition cache_ok (NODE_CLASSES : gmap string pyobj) : Prop :=
  forall name o, NODE_CLASSES !! name = Some o -> is_class o = true.

Lemma cache_ok_empty : cache_ok ∅.
Proof. intros name o H. by rewrite lookup_empty in H. Qed.

Lemma get_node_class_cache_ok (node_type : string) (cache : gmap string pyobj) :
  cache_ok cache -> cache_ok (get_node_class node_type cache).2.
Proof.
  intros Hok. unfold get_node_class.
  destruct (cache !! node_type) as [ [c | c] | ] eqn:Hc; simpl; try done;
    (destruct (NODE_MODULES !! node_type) as [m | ]; simpl; [ | done ];
     destruct (importable !! m) as [md | ]; simpl; [ | done ];
     destruct (md !! node_type) as [cls | ] eqn:Hcls; simpl; [ | done ];
     destruct (is_class cls) eqn:Hk; simpl; [ | done ];
     intros name o; rewrite lookup_insert; case_decide; [ congruence | apply Hok ]).
Qed.

(** C9. Resolution of a type name fails with [UnknownNodeType] exactly
    when the name is in neither the live class cache nor the discovered
    name-to-module map.  When it succeeds the result is a class, the cache
    holds it under the name, and resolving the name again returns the same
    class from the cache.  When the attribute found in the module is not a
    class, resolution fails with [InvalidNodeBinding]. *)
Theorem get_node_class_resolution (node_type : string) (cache : gmap string pyobj) :
  cache_ok cache ->
  ((get_node_class node_type cache).1 = inl UnknownNodeType <->
     cache !! node_type = None /\ NODE_MODULES !! node_type = None) /\
  (forall cls cache',
     get_node_class node_type cache = (inr cls, cache') ->
     is_class cls = true /\ cache' !! node_type = Some cls /\
     get_node_class node_type cache' = (inr cls, cache')) /\
  (forall module_name module o,
     cache !! node_type = None ->
     NODE_MODULES !! node_type = Some module_name ->
     importable !! module_name = Some module ->
     module !! node_type = Some o ->
     is_class o = false ->
     get_node_class node_type cache = (inl InvalidNodeBinding, cache)).
Proof.
  intros Hok. split; [ | split ].
  - unfold get_node_class.
    destruct (cache !! node_type) as [ [c | c] | ] eqn:Hc; simpl.
    + split; [ discriminate | intros [? _]; discriminate ].
    + apply Hok in Hc. discriminate.
    + destruct (NODE_MODULES !! node_type) as [m | ]; simpl; [ | done ].
      split; [ | intros [_ ?]; discriminate ].
      destruct (importable !! m) as [md | ]; simpl; [ | discriminate ].
      destruct (md !! node_type) as [o | ]; simpl; [ | discriminate ].
      destruct (is_class o); simpl; discriminate.
  - intros cls cache'. unfold get_node_class at 1.
    destruct (cache !! node_type) as [ [c | c] | ] eqn:Hc; simpl.
    + intros [= <- <-]. repeat split; [ done | ].
      unfold get_node_class. by rewrite Hc.
    + apply Hok in Hc. discriminate.
    + destruct (NODE_MODULES !! node_type) as [m | ]; simpl; [ | discriminate ].
      destruct (importable !! m) as [md | ]; simpl; [ | discriminate ].
      destruct (md !! node_type) as [o | ]; simpl; [ | discriminate ].
      destruct (is_class o) eqn:Hk; simpl; [ | discriminate ].
      intros [= <- <-]. split; [ done | ]. split; [ apply lookup_insert_eq | ].
      unfold get_node_class. rewrite lookup_insert_eq.
      destruct o; [ done | discriminate ].
  - intros m md o Hc Hm Hmd Ho Hk. unfold get_node_class.
    by rewrite Hc, Hm, Hmd, Ho, Hk.
Qed.

End Resolution.

(** A registry with one discovered plugin, one broken binding and nothing
    cached yet. *)
Definition demo_modules : gmap string string :=
  {[ "CSVReaderNode" := "src.modulos.CSV_Module"; "helper" := "src.modulos.CSV_Module" ]}.

Definition demo_importable : modules :=
  {[ "src.modulos.CSV_Module" :=
       {[ "CSVReaderNode" := ObjClass "CSVReaderNode"; "helper" := ObjOther "helper" ]} ]}.

Example resolve_known :
  get_node_class demo_modules demo_importable "CSVReaderNode" ∅ =
  (inr (ObjClass "CSVReaderNode"), {[ "CSVReaderNode" := ObjClass "CSVReaderNode" ]}).
Proof. by vm_compute. Qed.

Example resolve_unknown :
  (get_node_class demo_modules demo_importable "Nope" ∅).1 = inl UnknownNodeType.
Proof. by vm_compute. Qed.

Example resolve_not_a_class :
  (get_node_class demo_modules demo_importable "helper" ∅).1 = inl InvalidNodeBinding.
Proof. by vm_compute. Qed.

Lemma get_node_class_resolution_witness :
  cache_ok (∅ : gmap string pyobj) /\
  ((get_node_class demo_modules demo_importable "Nope" ∅).1 = inl UnknownNodeType <->
     (∅ : gmap string pyobj) !! "Nope" = None /\ demo_modules !! "Nope" = None).
Proof.
  split; [ apply cache_ok_empty | ].
  apply (get_node_class_resolution demo_modules demo_importable "Nope" ∅ cache_ok_empty).
Defined.

(** ** Discovery ([discover_node_modules]) *)

Section Discovery.

(** [issubclass(obj, Node)] by class identity; ["Node"] is the identity of
    the contract class itself. *)
Variable subclass_of_Node : string -> bool.

(** What [pkgutil.walk_packages] yields for a package, [(modname, ispkg)]
    in order, and the modules that [importlib] can load. *)
Variable walk_packages : gmap string (list (string * bool)).
Variable importable : modules.

(** [issubclass(obj, Node) and obj is not Node], for a member that
    [inspect.isclass] accepts. *)
Definition is_plugin (obj : pyobj) : bool :=
  match obj with
  | ObjClass id => subclass_of_Node id && negb (String.eqb id "Node")
  | ObjOther _ => false
  end.

(** The innermost loop, over [inspect.getmembers(mod, inspect.isclass)].
    The members of a module have distinct names, so the order of the loop
    does not show in the dictionary. *)
Definition scan_module (modname : string) (members : gmap string pyobj)
    (discovered : gmap string string) : gmap string string :=
  map_fold (fun name obj d => if is_plugin obj then <[name := modname]> d else d)
           discovered members.

(** The loop over the modules of one package. *)
Fixpoint scan_walk (found : list (string * bool)) (discovered : gmap string string)
  : error + gmap string string :=
  match found with
  | [] => inr discovered
  | (modname, ispkg) :: rest =>
      if ispkg then scan_walk rest discovered
      else
        match importable !! modname with
        | None => inl ModuleNotFound
        | Some members => scan_walk rest (scan_module modname members discovered)
        end
  end.

Fixpoint scan_packages (packages : list string) (discovered : gmap string string)
  : error + gmap string string :=
  match packages with
  | [] => inr discovered
  | package :: rest =>
      match walk_packages !! package with
      | None => inl ModuleNotFound
      | Some found =>
          match scan_walk found discovered with
          | inl e => inl e
          | inr discovered' => scan_packages rest discovered'
          end
      end
  end.

Definition discover_node_modules (packages : list string) : error + gmap string string :=
  scan_packages packages ∅.







End Discovery.

(** A plugin package with one module, which imports [BaseNode] and a
    library class besides defining two nodes, and one sub-package. *)
Definition demo_subclass (id : string) : bool :=
  bool_decide (id ∈ ["Node"; "BaseNode"; "CSVReaderNode"; "CSVWriterNode"]).

Definition demo_walk : gmap string (list (string * bool)) :=
  {[ "src.modulos" := [ ("src.modulos.CSV_Module", false); ("src.modulos.extra", true) ] ]}.

Definition demo_loaded_modules : modules :=
  {[ "src.modulos.CSV_Module" :=
       {[ "CSVReaderNode" := ObjClass "CSVReaderNode";
          "CSVWriterNode" := ObjClass "CSVWriterNode";
          "BaseNode" := ObjClass "BaseNode";
          "Node" := ObjClass "Node";
          "Path" := ObjClass "Path";
          "pl" := ObjOther "polars" ]} ]}.

Definition demo_discovered : gmap string string :=
  {[ "CSVReaderNode" := "src.modulos.CSV_Module";
     "CSVWriterNode" := "src.modulos.CSV_Module";
     "BaseNode" := "src.modulos.CSV_Module" ]}.

Example demo_discovery :
  discover_node_modules demo_subclass demo_walk demo_loaded_modules ["src.modulos"]
  = inr demo_discovered.
Proof. by vm_compute. Qed.

Example demo_discovery_missing :
  discover_node_modules demo_subclass demo_walk demo_loaded_modules ["src.plugins"]
  = inl ModuleNotFound.
Proof. by vm_compute. Qed.



(** ** Resolution and the other names *)



End Registry.

(* ===================================================================== *)
(** * Instantiate and wire (NodesEngine.py, pipeline_loader.py)           *)
(* ===================================================================== *)

Module Loader.
Import Types Registry.

(** What the loader reads from a node class: the declared types
    ([getattr(node, "output_type", None)]) and whether
    [__init__(name, **params)] accepts a given set of keyword names. *)
Record node_class : Type := {
  cls_output_type : option ty;
  cls_input_type : option ty;
  cls_accepts : list string -> bool;
}.

(** One entry of [pipeline_config["nodes"]]; an absent [params] or
    [outputs] reads as empty ([node_conf.get(..., {})], [.get(..., [])]). *)
Record node_conf : Type := {
  conf_name : string;
  conf_type : string;
  conf_params : list string;
  conf_outputs : list string;
}.

(** A [Node] object.  Objects are identified by their name: [node_map] holds
    one object per name and only objects of [node_map] are wired, so
    [inputs] and [outputs] hold names. *)
Record node : Type := {
  node_cls : string;
  inputs : list string;
  outputs : list string;
}.

Inductive load_error : Type :=
  | RegistryError (e : Registry.error)   (* raised by get_node_class *)
  | BadParams                            (* TypeError: unexpected keyword *)
  | EmptyName                            (* ValueError of Node.__init__ *)
  | UnknownName (name : string)          (* KeyError: node_map[...] *)
  | EdgeTypeError (producer consumer : string).

(** [Node.add_input]: [if node not in self.inputs: self.inputs.append(node)] *)
Definition add_input (g : gmap string node) (self node_ : string) : gmap string node :=
  match g !! self with
  | Some s =>
      if bool_decide (node_ ∈ inputs s) then g
      else <[self := {| node_cls := node_cls s; inputs := inputs s ++ [node_];
                        outputs := outputs s |}]> g
  | None => g
  end.

(** [Node.add_output]:
    [if node not in self.outputs: self.outputs.append(node); node.add_input(self)] *)
Definition add_output (g : gmap string node) (self node_ : string) : gmap string node :=
  match g !! self with
  | Some s =>
      if bool_decide (node_ ∈ outputs s) then g
      else
        add_input
          (<[self := {| node_cls := node_cls s; inputs := inputs s;
                        outputs := outputs s ++ [node_] |}]> g)
          node_ self
  | None => g
  end.

(** [PipelineEngine.add_node]: [self.nodes[node.name] = node]; the list is
    the key order of the dictionary. *)
Definition add_node (order : list string) (name : string) : list string :=
  if bool_decide (name ∈ order) then order else order ++ [name].

Definition obj_id (o : pyobj) : string :=
  match o with ObjClass id => id | ObjOther id => id end.

Section Instantiate.

Variable NODE_MODULES : gmap string string.
Variable importable : modules.
Variable class_info : string -> node_class.

(** First loop of [instantiate_nodes]: create the nodes. *)
Fixpoint create_nodes (confs : list node_conf) (cache : gmap string pyobj)
    (node_map : gmap string node) (order : list string)
  : load_error + (gmap string pyobj * gmap string node * list string) :=
  match confs with
  | [] => inr (cache, node_map, order)
  | node_conf :: rest =>
      match get_node_class NODE_MODULES importable (conf_type node_conf) cache with
      | (inl e, _) => inl (RegistryError e)
      | (inr cls, cache') =>
          (* node = cls(node_conf["name"], **node_conf.get("params", {})) *)
          if negb (cls_accepts (class_info (obj_id cls)) (conf_params node_conf))
          then inl BadParams
          else if bool_decide (conf_name node_conf = "") then inl EmptyName
          else
            create_nodes rest cache'
              (<[conf_name node_conf :=
                   {| node_cls := obj_id cls; inputs := []; outputs := [] |}]> node_map)
              (add_node order (conf_name node_conf))
      end
  end.

(** Inner loop of the second loop: the outputs of one node. *)
Fixpoint connect_outputs (name : string) (output_names : list string)
    (node_map : gmap string node) : load_error + gmap string node :=
  match output_names with
  | [] => inr node_map
  | output_name :: rest =>
      match node_map !! name, node_map !! output_name with
      | None, _ => inl (UnknownName name)
      | _, None => inl (UnknownName output_name)
      | Some nd, Some output_node =>
          let node_map' := add_output node_map name output_name in
          let output_type := cls_output_type (class_info (node_cls nd)) in
          let input_type := cls_input_type (class_info (node_cls output_node)) in
          if are_types_compatible output_type input_type
          then connect_outputs name rest node_map'
          else inl (EdgeTypeError name output_name)
      end
  end.

(** Second loop of [instantiate_nodes]: connect the nodes. *)
Fixpoint connect_nodes (confs : list node_conf) (node_map : gmap string node)
  : load_error + gmap string node :=
  match confs with
  | [] => inr node_map
  | node_conf :: rest =>
      match node_map !! conf_name node_conf with
      | None => inl (UnknownName (conf_name node_conf))
      | Some _ =>
          match connect_outputs (conf_name node_conf) (conf_outputs node_conf) node_map with
          | inl e => inl e
          | inr node_map' => connect_nodes rest node_map'
          end
      end
  end.

(** [instantiate_nodes(pipeline_config)]: the engine's node order and the
    node map (the same objects), with the registry cache threaded. *)
Definition instantiate_nodes (confs : list node_conf) (cache : gmap string pyobj)
  : load_error + (gmap string pyobj * gmap string node * list string) :=
  match create_nodes confs cache ∅ [] with
  | inl e => inl e
  | inr (cache', node_map, order) =>
      match connect_nodes confs node_map with
      | inl e => inl e
      | inr node_map' => inr (cache', node_map', order)
      end
  end.

End Instantiate.

(** ** Edge symmetry *)

Definition outs (g : gmap string node) (a : string) : list string :=
  from_option outputs [] (g !! a).

Definition ins (g : gmap string node) (b : string) : list string :=
  from_option inputs [] (g !! b).

(** Every edge is registered on both endpoints. *)
Definition symmetric (g : gmap string node) : Prop :=
  forall a b, b ∈ outs g a <-> a ∈ ins g b.

Lemma outs_add_input g self node_ a : outs (add_input g self node_) a = outs g a.
Proof.
  unfold add_input, outs. destruct (g !! self) as [s | ] eqn:Hs; [ | done ].
  case_bool_decide; [ done | ].
  rewrite lookup_insert. case_decide; [ subst; by rewrite Hs | done ].
Qed.

Lemma ins_add_input g self node_ b :
  is_Some (g !! self) ->
  forall x, x ∈ ins (add_input g self node_) b <-> x ∈ ins g b \/ (b = self /\ x = node_).
Proof.
  intros [s Hs] x. unfold add_input, ins. rewrite Hs.
  case_bool_decide as Hin.
  - split; [ by left | ]. intros [ ? | [-> ->] ]; [ done | by rewrite Hs ].
  - rewrite lookup_insert. case_decide as Hb.
    + subst b. rewrite Hs. simpl. rewrite elem_of_app, list_elem_of_singleton.
      split; intros [ ? | ? ]; auto. tauto.
    + split; [ by left | ]. intros [ ? | [-> _] ]; done.
Qed.

Lemma add_output_edges g self node_ :
  symmetric g -> is_Some (g !! self) -> is_Some (g !! node_) ->
  forall a b,
    (b ∈ outs (add_output g self node_) a <-> b ∈ outs g a \/ (a = self /\ b = node_)) /\
    (a ∈ ins (add_output g self node_) b <-> a ∈ ins g b \/ (a = self /\ b = node_)).
Proof.
  intros Hsym [s Hs] [t Ht] a b. unfold add_output. rewrite Hs.
  case_bool_decide as Hin.
  - assert (Hin' : self ∈ ins g node_).
    { apply Hsym. unfold outs. by rewrite Hs. }
    split.
    + split; [ by left | ]. intros [ ? | [-> ->] ]; [ done | ].
      unfold outs. by rewrite Hs.
    + split; [ by left | ]. intros [ ? | [-> ->] ]; done.
  - set (g1 := <[self := _]> g).
    assert (Hnode : is_Some (g1 !! node_)).
    { unfold g1. rewrite lookup_insert. case_decide; eauto. }
    split.
    + rewrite outs_add_input. unfold outs, g1. rewrite lookup_insert.
      case_decide as Ha.
      * subst a. rewrite Hs. simpl. rewrite elem_of_app, list_elem_of_singleton.
        split; intros [ ? | ? ]; auto. tauto.
      * split; [ by left | ]. intros [ ? | [-> _] ]; done.
    + rewrite (ins_add_input g1 node_ self b Hnode a).
      assert (Hins : ins g1 b = ins g b).
      { unfold ins, g1. rewrite lookup_insert.
        case_decide; [ subst; by rewrite Hs | done ]. }
      rewrite Hins. tauto.
Qed.

Lemma add_output_symmetric g self node_ :
  symmetric g -> is_Some (g !! self) -> is_Some (g !! node_) ->
  symmetric (add_output g self node_).
Proof.
  intros Hsym Hs Ht a b.
  destruct (add_output_edges g self node_ Hsym Hs Ht a b) as [-> ->].
  rewrite (Hsym a b). tauto.
Qed.

Lemma add_input_dom g self node_ x :
  is_Some (add_input g self node_ !! x) <-> is_Some (g !! x).
Proof.
  unfold add_input. destruct (g !! self) as [s | ] eqn:Hs; [ | done ].
  case_bool_decide; [ done | ].
  rewrite lookup_insert. case_decide; [ subst; rewrite Hs; split; eauto | done ].
Qed.

Lemma add_output_dom g self node_ x :
  is_Some (add_output g self node_ !! x) <-> is_Some (g !! x).
Proof.
  unfold add_output. destruct (g !! self) as [s | ] eqn:Hs; [ | done ].
  case_bool_decide; [ done | ].
  rewrite add_input_dom, lookup_insert.
  case_decide; [ subst; rewrite Hs; split; eauto | done ].
Qed.

Section Symmetry.

Variable NODE_MODULES : gmap string string.
Variable importable : modules.
Variable class_info : string -> node_class.

Lemma connect_outputs_symmetric name output_names g g' :
  symmetric g ->
  connect_outputs class_info name output_names g = inr g' ->
  symmetric g'.
Proof.
  revert g. induction output_names as [ | o rest IH ]; intros g Hsym; simpl.
  - by intros [= <-].
  - destruct (g !! name) as [nd | ] eqn:Hn; [ | discriminate ].
    destruct (g !! o) as [od | ] eqn:Ho; [ | discriminate ].
    destruct (are_types_compatible _ _); [ | discriminate ].
    apply IH. apply add_output_symmetric; eauto.
Qed.

Lemma connect_nodes_symmetric confs g g' :
  symmetric g ->
  connect_nodes class_info confs g = inr g' ->
  symmetric g'.
Proof.
  revert g. induction confs as [ | c rest IH ]; intros g Hsym; simpl.
  - by intros [= <-].
  - destruct (g !! conf_name c); [ | discriminate ].
    destruct (connect_outputs _ _ _ g) as [ e | g1 ] eqn:Hc; [ discriminate | ].
    apply IH. by eapply connect_outputs_symmetric.
Qed.

(** Freshly created nodes have no edges. *)
Definition unwired (g : gmap string node) : Prop :=
  forall a nd, g !! a = Some nd -> inputs nd = [] /\ outputs nd = [].

Lemma unwired_symmetric g : unwired g -> symmetric g.
Proof.
  intros Hu a b. unfold outs, ins.
  destruct (g !! a) as [na | ] eqn:Ha, (g !! b) as [nb | ] eqn:Hb; simpl.
  - destruct (Hu _ _ Ha) as [_ ->], (Hu _ _ Hb) as [-> _]. by rewrite !elem_of_nil.
  - destruct (Hu _ _ Ha) as [_ ->]. by rewrite !elem_of_nil.
  - destruct (Hu _ _ Hb) as [-> _]. by rewrite !elem_of_nil.
  - by rewrite !elem_of_nil.
Qed.

Lemma create_nodes_unwired confs cache g order cache' g' order' :
  unwired g ->
  create_nodes NODE_MODULES importable class_info confs cache g order
    = inr (cache', g', order') ->
  unwired g'.
Proof.
  revert cache g order. induction confs as [ | c rest IH ]; intros cache g order Hu; simpl.
  - by intros [= _ <- _].
  - destruct (get_node_class _ _ _ _) as [ [e | cls] cache1 ]; [ discriminate | ].
    destruct (negb _); [ discriminate | ].
    case_bool_decide; [ discriminate | ].
    apply IH. intros a nd. rewrite lookup_insert.
    case_decide; [ by intros [= <-] | apply Hu ].
Qed.

(** C7. In every pipeline that [instantiate_nodes] returns, for every
    pair of nodes [a] and [b] of the node map: [b] is in the outputs of [a]
    exactly when [a] is in the inputs of [b]. *)
Theorem instantiate_nodes_edge_symmetry confs cache cache' node_map order :
  instantiate_nodes NODE_MODULES importable class_info confs cache
    = inr (cache', node_map, order) ->
  forall a b A B,
    node_map !! a = Some A -> node_map !! b = Some B ->
    (b ∈ outputs A <-> a ∈ inputs B).
Proof.
  unfold instantiate_nodes.
  destruct (create_nodes _ _ _ _ _ _ _) as [ e | [ [cache1 g1] order1 ] ] eqn:Hcreate;
    [ discriminate | ].
  destruct (connect_nodes _ _ _) as [ e | g2 ] eqn:Hconnect; [ discriminate | ].
  intros [= <- <- <-] a b A B HA HB.
  assert (Hsym : symmetric g2).
  { eapply connect_nodes_symmetric; [ | exact Hconnect ].
    apply unwired_symmetric.
    eapply create_nodes_unwired; [ | exact Hcreate ].
    intros x nd. by rewrite lookup_empty. }
  specialize (Hsym a b). unfold outs, ins in Hsym. by rewrite HA, HB in Hsym.
Qed.

End Symmetry.

(** ** A three-node chain, [A -> B -> C], and a self-loop on [C] *)

Definition demo_class_info (id : string) : node_class :=
  {| cls_output_type := if bool_decide (id = "CSVReaderNode")
                        then Some (TyGeneric "dict" [TyClass "str"; TyAny]) else None;
     cls_input_type := None;
     cls_accepts := forallb (fun kw => bool_decide (kw = "config")) |}.

Definition demo_registry : gmap string string :=
  {[ "CSVReaderNode" := "src.modulos.CSV_Module";
     "CSVWriterNode" := "src.modulos.CSV_Module" ]}.

Definition demo_importable : modules :=
  {[ "src.modulos.CSV_Module" :=
       {[ "CSVReaderNode" := ObjClass "CSVReaderNode";
          "CSVWriterNode" := ObjClass "CSVWriterNode" ]} ]}.

Definition demo_confs : list node_conf :=
  [ {| conf_name := "A"; conf_type := "CSVReaderNode"; conf_params := ["config"];
       conf_outputs := ["B"; "B"] |};
    {| conf_name := "B"; conf_type := "CSVWriterNode"; conf_params := [];
       conf_outputs := ["C"] |};
    {| conf_name := "C"; conf_type := "CSVWriterNode"; conf_params := [];
       conf_outputs := ["C"] |} ].

Definition demo_loaded : gmap string pyobj * gmap string node * list string :=
  Eval vm_compute in
    match instantiate_nodes demo_registry demo_importable demo_class_info demo_confs ∅ with
    | inr r => r
    | inl _ => (∅, ∅, [])
    end.

Example demo_loaded_order : demo_loaded.2 = ["A"; "B"; "C"].
Proof. reflexivity. Qed.

Example demo_loaded_A :
  demo_loaded.1.2 !! "A" =
  Some {| node_cls := "CSVReaderNode"; inputs := []; outputs := ["B"] |}.
Proof. reflexivity. Qed.

Example demo_loaded_C :
  demo_loaded.1.2 !! "C" =
  Some {| node_cls := "CSVWriterNode"; inputs := ["B"; "C"]; outputs := ["C"] |}.
Proof. reflexivity. Qed.

Example demo_unknown_output :
  instantiate_nodes demo_registry demo_importable demo_class_info
    [ {| conf_name := "A"; conf_type := "CSVReaderNode"; conf_params := [];
         conf_outputs := ["Z"] |} ] ∅
  = inl (UnknownName "Z").
Proof. reflexivity. Qed.

Lemma instantiate_nodes_edge_symmetry_witness :
  instantiate_nodes demo_registry demo_importable demo_class_info demo_confs ∅
    = inr demo_loaded /\
  ("B" ∈ ["B"] <-> "A" ∈ ["A"]).
Proof.
  split; [ reflexivity | ].
  exact (instantiate_nodes_edge_symmetry demo_registry demo_importable demo_class_info
           demo_confs ∅ demo_loaded.1.1 demo_loaded.1.2 demo_loaded.2 eq_refl
           "A" "B"
           {| node_cls := "CSVReaderNode"; inputs := []; outputs := ["B"] |}
           {| node_cls := "CSVWriterNode"; inputs := ["A"]; outputs := ["C"] |}
           eq_refl eq_refl).
Defined.

End Loader.

(* ===================================================================== *)
(** * Execution engine (PipelineEngine.py)                                *)
(* ===================================================================== *)

Module Engine.

(** The engine is modelled for one thread of control: the jobs that the
    source hands to threads or to a [ThreadPoolExecutor] are run one after
    the other, in submission order, and an exception that ends such a job
    is dropped as the thread or the unread future drops it.  This is how
    main.py drives the engine: one initial delivery, so one thread, and the
    nodes of src/modulos return mappings or single values, never lists,
    so that every result is propagated inline.
    Recursion through the graph is bounded by [fuel], the depth of nested
    [run_node] calls. *)

Inductive returned (A : Type) : Type :=
  | Ret (a : A)        (* the call returned [a] *)
  | Exn.               (* the call raised *)
Arguments Ret {A} a.
Arguments Exn {A}.

Inductive status : Type :=
  | Done               (* returned normally *)
  | Raised             (* an exception left the call *)
  | OutOfFuel.         (* the model ran out of recursion depth *)

Section Engine.

(** Python values that travel between nodes, and [None]. *)
Context {V : Type}.
Variable py_none : V.

(** Whatever the code of the nodes reads and changes. *)
Context {world : Type}.

(** A result of [run] that is not [None]: a [list] of pairs, a [dict]
    (its items in iteration order) or any other value. *)
Inductive payload : Type :=
  | PList (items : list (string * V))
  | PDict (items : list (string * V))
  | PBare (v : V).

(** A node object.  [None] for [required_inputs] and [finalize] is an
    absent attribute; [outputs] holds the names of the child objects. *)
Record node : Type := {
  required_inputs : option (list string);
  defer_output : bool;
  outputs : list string;
  run : option (gmap string V) -> world -> world * returned (option payload);
  finalize : option (world -> world * returned (option (list (string * V))));
}.

(** The node objects by name.  A name is the identity of an object: the
    loader keeps one object per name and the buffer is keyed by name. *)
Variable graph : string -> node.

(** What the engine does, in order: a call of [run_node], a call of a
    node's [run] with its argument and outcome, a call of [finalize]. *)
Inductive event : Type :=
  | EvDeliver (target : string) (key : option string) (value : V)
  | EvRun (target : string) (arg : option (gmap string V))
          (res : returned (option payload))
  | EvFinalize (target : string) (res : returned (option (list (string * V)))).

Record state : Type := {
  node_input_buffer : gmap string (gmap string V);   (* defaultdict(dict) *)
  env : world;
  trace : list event;
}.

Definition initial (w : world) : state :=
  {| node_input_buffer := ∅; env := w; trace := [] |}.

Definition record (e : event) (st : state) : state :=
  {| node_input_buffer := node_input_buffer st; env := env st;
     trace := trace st ++ [e] |}.

(** The dictionary that [self.node_input_buffer[name]] evaluates to. *)
Definition buffer_of (b : gmap string (gmap string V)) (name : string) : gmap string V :=
  default ∅ (b !! name).

(** Reading [self.node_input_buffer[name]] creates a missing entry. *)
Definition touch (b : gmap string (gmap string V)) (name : string)
  : gmap string (gmap string V) :=
  <[name := buffer_of b name]> b.

(** [self.node_input_buffer[name][input_name] = input_value] when
    [input_name is not None]. *)
Definition store_input (b : gmap string (gmap string V)) (name : string)
    (input_name : option string) (input_value : V) : gmap string (gmap string V) :=
  match input_name with
  | Some k => <[name := <[k := input_value]> (buffer_of b name)]> b
  | None => b
  end.

(** Truth value of [required]: [None] and [[]] are false. *)
Definition truthy {A : Type} (l : option (list A)) : bool :=
  match l with Some (_ :: _) => true | _ => false end.

(** [all(k in buffer for k in required)] *)
Definition all_present (required : list string) (buffer : gmap string V) : bool :=
  forallb (fun k => bool_decide (is_Some (buffer !! k))) required.

(** [{k: buffer[k] for k in required}]; it is evaluated only when every
    key is present. *)
Definition dict_of_required (required : list string) (buffer : gmap string V)
  : gmap string V :=
  fold_left (fun d k => match buffer !! k with Some v => <[k := v]> d | None => d end)
            required ∅.

(** Lines 30-47, the part under the lock: the buffer afterwards and
    [run_inputs] when the node is to execute. *)
Definition lock_section (nd : node) (name : string) (input_name : option string)
    (input_value : V) (b : gmap string (gmap string V))
  : option (gmap string V) * gmap string (gmap string V) :=
  let b := store_input b name input_name input_value in
  match required_inputs nd with
  | Some (k :: ks) =>
      let required := k :: ks in
      let b := touch b name in
      if all_present required (buffer_of b name)
      then (Some (dict_of_required required (buffer_of b name)), b)
      else (None, b)
  | _ =>
      (Some (match input_name with
             | None => ∅
             | Some k => {[ k := input_value ]}
             end), b)
  end.

(** Lines 55-61: [result = node.run(...)], then the buffer of the node is
    cleared; when [run] raises, line 61 is not reached. *)
Definition execute (nd : node) (name : string) (arg : option (gmap string V))
    (st : state) : returned (option payload) * state :=
  let '(w, res) := run nd arg (env st) in
  match res with
  | Exn =>
      (Exn, {| node_input_buffer := node_input_buffer st; env := w;
               trace := trace st ++ [EvRun name arg Exn] |})
  | Ret result =>
      (Ret result,
       {| node_input_buffer := <[name := ∅]> (node_input_buffer st); env := w;
          trace := trace st ++ [EvRun name arg (Ret result)] |})
  end.

(** A [for] loop whose body may raise: the first iteration that does not
    return normally ends the loop. *)
Fixpoint for_each {A : Type} (xs : list A) (body : A -> state -> status * state)
    (st : state) : status * state :=
  match xs with
  | [] => (Done, st)
  | x :: xs' =>
      match body x st with
      | (Done, st') => for_each xs' body st'
      | other => other
      end
  end.

(** A job handed to a thread or to the executor: its exception is not
    seen by the submitter. *)
Definition job (o : status * state) : status * state :=
  match o with
  | (Raised, st) => (Done, st)
  | other => other
  end.

(** Lines 74-87: propagate a result that is not [None] to the children;
    [deliver] is [self.run_node]. *)
Definition propagate
    (deliver : string -> option string -> V -> state -> status * state)
    (nd : node) (result : payload) (st : state) : status * state :=
  for_each (outputs nd)
    (fun output_node =>
       match result with
       | PList items =>
           for_each items (fun item => job ∘ deliver output_node (Some item.1) item.2)
       | PDict items =>
           for_each items (fun '(k, v) => deliver output_node (Some k) v)
       | PBare v => deliver output_node None v
       end)
    st.

(** [PipelineEngine.run_node] *)
Fixpoint run_node (fuel : nat) (name : string) (input_name : option string)
    (input_value : V) (st : state) {struct fuel} : status * state :=
  match fuel with
  | 0 => (OutOfFuel, st)
  | S fuel' =>
      let nd := graph name in
      let st := record (EvDeliver name input_name input_value) st in
      match lock_section nd name input_name input_value (node_input_buffer st) with
      | (None, b) =>
          (Done, {| node_input_buffer := b; env := env st; trace := trace st |})
      | (Some run_inputs, b) =>
          let st := {| node_input_buffer := b; env := env st; trace := trace st |} in
          let arg := if truthy (required_inputs nd) then Some run_inputs else None in
          match execute nd name arg st with
          | (Exn, st) => (Raised, st)
          | (Ret None, st) =>
              if defer_output nd then (Done, st) else (Done, st)
          | (Ret (Some result), st) => propagate (run_node fuel') nd result st
          end
      end
  end.

(** Lines 126-132: one round of the finalize loop. *)
Definition finalize_node
    (deliver : string -> option string -> V -> state -> status * state)
    (name : string) (st : state) : status * state :=
  let nd := graph name in
  match finalize nd with
  | None => (Done, st)
  | Some fin =>
      let '(w, res) := fin (env st) in
      let st := {| node_input_buffer := node_input_buffer st; env := w;
                   trace := trace st ++ [EvFinalize name res] |} in
      match res with
      | Exn => (Raised, st)
      | Ret (Some (item :: items)) =>
          for_each (outputs nd)
            (fun output_node =>
               for_each (item :: items) (fun '(k, v) => deliver output_node (Some k) v))
            st
      | Ret _ => (Done, st)               (* [if final_output:] is false *)
      end
  end.

(** [PipelineEngine.run]; [nodes] are the keys of [self.nodes] in order. *)
Definition run_pipeline (fuel : nat) (nodes : list string) (entry_name : string)
    (input_data : option (list (string * V))) (wait : bool) (st : state)
  : status * state :=
  if bool_decide (entry_name ∈ nodes) then
    let started :=
      match input_data with
      | Some (item :: items) =>
          for_each (item :: items)
            (fun '(k, v) => job ∘ run_node fuel entry_name (Some k) v) st
      | _ => job (run_node fuel entry_name None py_none st)
      end in
    match started with
    | (Done, st) =>
        if wait then for_each nodes (finalize_node (run_node fuel)) st
        else (Done, st)
    | other => other
    end
  else (Raised, st).                       (* KeyError: self.nodes[entry_name] *)

(** ** Notions of the specification *)

(** The deliveries that reached [name] since its last execution that
    returned: the latest value under each key. *)
Definition pending_step (name : string) (m : gmap string V) (e : event) : gmap string V :=
  match e with
  | EvDeliver target (Some k) v => if bool_decide (target = name) then <[k := v]> m else m
  | EvRun target _ (Ret _) => if bool_decide (target = name) then ∅ else m
  | _ => m
  end.

Definition pending (name : string) (t : list event) : gmap string V :=
  fold_left (pending_step name) t ∅.

(** Readiness (section 8, property 2) over a trace: whenever [run] of a
    node with required inputs [R] is called, every key of [R] has been
    delivered since the last execution of the node, and the argument is
    the mapping of exactly the keys of [R] to the values delivered last. *)
Definition readiness_respected (t : list event) : Prop :=
  forall i name arg res R,
    t !! i = Some (EvRun name arg res) ->
    required_inputs (graph name) = Some R -> R <> [] ->
    (forall key, key ∈ R -> is_Some (pending name (take i t) !! key)) /\
    exists run_inputs,
      arg = Some run_inputs /\
      forall key, run_inputs !! key =
                  if bool_decide (key ∈ R) then pending name (take i t) !! key else None.

(** The buffers hold what is pending. *)
Definition tracks (st : state) : Prop :=
  forall name, buffer_of (node_input_buffer st) name = pending name (trace st).

(** One delivery per child and per pair of a mapping, children first. *)
Definition deliveries (children : list string) (items : list (string * V))
  : list (string * string * V) :=
  c ← children; kv ← items; [(c, kv.1, kv.2)].

(** Issue the deliveries in order; stop at the first that does not
    return normally. *)
Definition deliver_all
    (deliver : string -> option string -> V -> state -> status * state)
    (ds : list (string * string * V)) (st : state) : status * state :=
  for_each ds (fun d => deliver d.1.1 (Some d.1.2) d.2) st.

(** The nodes whose [finalize] was called, in order of the calls. *)
Definition finalized (t : list event) : list string :=
  omap (fun e => match e with EvFinalize name _ => Some name | _ => None end) t.

Definition has_finalize (name : string) : bool :=
  match finalize (graph name) with Some _ => true | None => false end.

(** The part of [run_node] before propagation: how the call ends, or the
    result to propagate. *)
Definition head (name : string) (input_name : option string) (input_value : V)
    (st : state) : (status + payload) * state :=
  let nd := graph name in
  let st := record (EvDeliver name input_name input_value) st in
  match lock_section nd name input_name input_value (node_input_buffer st) with
  | (None, b) =>
      (inl Done, {| node_input_buffer := b; env := env st; trace := trace st |})
  | (Some run_inputs, b) =>
      let st := {| node_input_buffer := b; env := env st; trace := trace st |} in
      let arg := if truthy (required_inputs nd) then Some run_inputs else None in
      match execute nd name arg st with
      | (Exn, st) => (inl Raised, st)
      | (Ret None, st) => (inl Done, st)
      | (Ret (Some result), st) => (inr result, st)
      end
  end.

(** The graph has no cycle: children have a smaller rank. *)
Definition acyclic (rank : string -> nat) : Prop :=
  forall name c, c ∈ outputs (graph name) -> rank c < rank name.

(** No [run] and no [finalize] raises. *)
Definition never_raises : Prop :=
  (forall name arg w, (run (graph name) arg w).2 <> Exn) /\
  (forall name fin w, finalize (graph name) = Some fin -> (fin w).2 <> Exn).

(** ** Buffers *)

Lemma buffer_of_insert b name m x :
  buffer_of (<[name := m]> b) x = if decide (name = x) then m else buffer_of b x.
Proof. unfold buffer_of. rewrite lookup_insert. by case_decide. Qed.

Lemma buffer_of_touch b name x : buffer_of (touch b name) x = buffer_of b x.
Proof. unfold touch. rewrite buffer_of_insert. case_decide; by subst. Qed.

Lemma buffer_of_store b name k v x :
  buffer_of (store_input b name k v) x =
  if decide (name = x)
  then match k with Some k => <[k := v]> (buffer_of b name) | None => buffer_of b name end
  else buffer_of b x.
Proof.
  destruct k as [k | ]; simpl.
  - apply buffer_of_insert.
  - case_decide; by subst.
Qed.

Lemma lock_section_buffer nd name k v b x :
  buffer_of (lock_section nd name k v b).2 x = buffer_of (store_input b name k v) x.
Proof.
  unfold lock_section. destruct (required_inputs nd) as [ [ | r rs ] | ]; try done.
  destruct (all_present _ _); apply buffer_of_touch.
Qed.

Lemma all_present_spec required buffer :
  all_present required buffer = true <->
  forall key, key ∈ required -> is_Some (buffer !! key).
Proof.
  unfold all_present. rewrite forallb_forall. split.
  - intros H key Hin. apply list_elem_of_In, H in Hin. by apply bool_decide_eq_true in Hin.
  - intros H key Hin. apply bool_decide_eq_true, H, list_elem_of_In, Hin.
Qed.

Lemma dict_of_required_lookup required buffer key :
  dict_of_required required buffer !! key =
  if bool_decide (key ∈ required) then buffer !! key else None.
Proof.
  unfold dict_of_required.
  assert (Hgen : forall d : gmap string V,
    fold_left (fun d k => match buffer !! k with Some v => <[k := v]> d | None => d end)
              required d !! key =
    match (if bool_decide (key ∈ required) then buffer !! key else None) with
    | Some v => Some v
    | None => d !! key
    end).
  { induction required as [ | r rs IH ]; intros d; simpl.
    - done.
    - assert (Hf : match buffer !! r with Some v => <[r := v]> d | None => d end !! key =
                   match (if bool_decide (key = r) then buffer !! key else None) with
                   | Some v => Some v
                   | None => d !! key
                   end).
      { clear IH. case_bool_decide as E.
        - subst r. destruct (buffer !! key) eqn:Hb; [ by rewrite lookup_insert_eq | done ].
        - destruct (buffer !! r); [ rewrite lookup_insert_ne; congruence | done ]. }
      rewrite IH, Hf.
      rewrite (bool_decide_ext (key ∈ r :: rs) (key = r \/ key ∈ rs)) by apply elem_of_cons.
      repeat case_bool_decide; destruct (buffer !! key); tauto. }
  rewrite Hgen. rewrite lookup_empty. by destruct (if bool_decide _ then _ else _).
Qed.

(** ** Loops *)

Lemma job_state o : (job o).2 = o.2.
Proof. by destruct o as [ [ | | ] st ]. Qed.

Lemma for_each_rel {A : Type} (R : state -> state -> Prop)
    `{!Reflexive R, !Transitive R}
    (xs : list A) (body : A -> state -> status * state) :
  (forall x st, x ∈ xs -> R st (body x st).2) ->
  forall st, R st (for_each xs body st).2.
Proof.
  induction xs as [ | x xs IH ]; intros Hbody st; simpl.
  - reflexivity.
  - pose proof (Hbody x st (list_elem_of_here _ _)) as Hx.
    destruct (body x st) as [ [ | | ] st1 ]; simpl in *; try done.
    etrans; [ exact Hx | ]. apply IH. intros y st' Hy. apply Hbody. by right.
Qed.

Lemma propagate_rel (R : state -> state -> Prop) `{!Reflexive R, !Transitive R}
    deliver nd result :
  (forall c k v st, c ∈ outputs nd -> R st (deliver c k v st).2) ->
  forall st, R st (propagate deliver nd result st).2.
Proof.
  intros Hd st. unfold propagate. apply for_each_rel; [ done .. | ].
  intros c st1 Hc. destruct result as [ items | items | v ].
  - apply for_each_rel; [ done .. | ]. intros item st2 _. simpl. rewrite job_state. by apply Hd.
  - apply for_each_rel; [ done .. | ]. intros [k v] st2 _. by apply Hd.
  - by apply Hd.
Qed.

Lemma run_node_S fuel name k v st :
  run_node (S fuel) name k v st =
  match head name k v st with
  | (inl s, st') => (s, st')
  | (inr result, st') => propagate (run_node fuel) (graph name) result st'
  end.
Proof.
  simpl. unfold head.
  destruct (lock_section _ _ _ _ _) as [ [ run_inputs | ] b ]; [ | done ].
  destruct (execute _ _ _ _) as [ [ [ result | ] | ] st1 ]; try done.
  by destruct (defer_output _).
Qed.

(** Whatever the head of every delivery preserves, every call of
    [run_node] preserves. *)
Lemma run_node_rel (R : state -> state -> Prop) `{!Reflexive R, !Transitive R} :
  (forall name k v st, R st (head name k v st).2) ->
  forall fuel name k v st, R st (run_node fuel name k v st).2.
Proof.
  intros Hhead. induction fuel as [ | fuel IH ]; intros name k v st.
  - reflexivity.
  - rewrite run_node_S. pose proof (Hhead name k v st) as Hh.
    destruct (head name k v st) as [ [ s | result ] st1 ]; simpl in *; [ done | ].
    etrans; [ exact Hh | ]. apply propagate_rel; [ done .. | ].
    intros c k' v' st2 _. apply IH.
Qed.

Lemma finalize_node_rel (R : state -> state -> Prop) `{!Reflexive R, !Transitive R}
    deliver name :
  (forall c k v st, R st (deliver c k v st).2) ->
  (forall st fin,
     finalize (graph name) = Some fin ->
     R st {| node_input_buffer := node_input_buffer st; env := (fin (env st)).1;
             trace := trace st ++ [EvFinalize name (fin (env st)).2] |}) ->
  forall st, R st (finalize_node deliver name st).2.
Proof.
  intros Hd Hfin st. unfold finalize_node.
  destruct (finalize (graph name)) as [ fin | ] eqn:Hf; [ | reflexivity ].
  specialize (Hfin st fin eq_refl).
  destruct (fin (env st)) as [ w res ]; cbn [fst snd] in Hfin.
  destruct res as [ [ [ | item items ] | ] | ]; try done.
  etrans; [ exact Hfin | ].
  apply for_each_rel; [ done .. | ]. intros c st1 _.
  apply for_each_rel; [ done .. | ]. intros [k v] st2 _. apply Hd.
Qed.

Lemma run_pipeline_rel (R : state -> state -> Prop) `{!Reflexive R, !Transitive R} :
  (forall name k v st, R st (head name k v st).2) ->
  (forall name st fin,
     finalize (graph name) = Some fin ->
     R st {| node_input_buffer := node_input_buffer st; env := (fin (env st)).1;
             trace := trace st ++ [EvFinalize name (fin (env st)).2] |}) ->
  forall fuel nodes entry_name input_data wait st,
    R st (run_pipeline fuel nodes entry_name input_data wait st).2.
Proof.
  intros Hhead Hfin fuel nodes entry_name input_data wait st.
  pose proof (run_node_rel R Hhead fuel) as Hrun.
  unfold run_pipeline. case_bool_decide; [ | reflexivity ].
  set (started := match input_data with Some (_ :: _) => _ | _ => _ end).
  assert (Hstarted : R st started.2).
  { unfold started. destruct input_data as [ [ | item items ] | ];
      try (rewrite job_state; apply Hrun).
    apply for_each_rel; [ done .. | ]. intros [k v] st1 _. simpl.
    rewrite job_state. apply Hrun. }
  destruct started as [ [ | | ] st1 ]; simpl in *; try done.
  destruct wait; [ | done ].
  etrans; [ exact Hstarted | ].
  apply for_each_rel; [ done .. | ]. intros name st2 _.
  apply finalize_node_rel; [ done .. | | ].
  - intros c k v st3. apply Hrun.
  - intros st3 fin. apply Hfin.
Qed.

(** ** The buffers track the pending deliveries *)

Lemma pending_snoc name t e :
  pending name (t ++ [e]) = pending_step name (pending name t) e.
Proof. unfold pending. by rewrite fold_left_app. Qed.

Lemma readiness_respected_snoc t e :
  readiness_respected t ->
  (forall name arg res R,
     e = EvRun name arg res ->
     required_inputs (graph name) = Some R -> R <> [] ->
     (forall key, key ∈ R -> is_Some (pending name t !! key)) /\
     exists run_inputs,
       arg = Some run_inputs /\
       forall key, run_inputs !! key =
                   if bool_decide (key ∈ R) then pending name t !! key else None) ->
  readiness_respected (t ++ [e]).
Proof.
  intros Ht He i name arg res R Hi HR Hne.
  destruct (decide (i < length t)) as [ Hlt | Hge ].
  - rewrite lookup_app_l in Hi by done.
    rewrite take_app_le by lia. by eapply Ht.
  - apply lookup_lt_Some in Hi as Hlen. rewrite length_app in Hlen. simpl in Hlen.
    assert (i = length t) as -> by lia.
    rewrite list_lookup_middle in Hi by done. injection Hi as Heq.
    rewrite take_app_length. by eapply He.
Qed.

Definition coherent (st : state) : Prop :=
  tracks st /\ readiness_respected (trace st).

Lemma coherent_initial w : coherent (initial w).
Proof.
  split.
  - intros name. unfold buffer_of. simpl. by rewrite lookup_empty.
  - intros i name arg res R Hi. simpl in Hi. by rewrite lookup_nil in Hi.
Qed.

Lemma lock_section_required nd name k v b R :
  required_inputs nd = Some R -> R <> [] ->
  (lock_section nd name k v b).1 =
  if all_present R (buffer_of (store_input b name k v) name)
  then Some (dict_of_required R (buffer_of (store_input b name k v) name))
  else None.
Proof.
  intros HR Hne. unfold lock_section. rewrite HR.
  destruct R as [ | r rs ]; [ done | ].
  rewrite buffer_of_touch. by destruct (all_present _ _).
Qed.

Lemma lock_section_no_required nd name k v b :
  truthy (required_inputs nd) = false ->
  lock_section nd name k v b =
  (Some (match k with None => ∅ | Some k => {[ k := v ]} end), store_input b name k v).
Proof.
  unfold lock_section. by destruct (required_inputs nd) as [ [ | r rs ] | ].
Qed.

Lemma head_coherent name k v st : coherent st -> coherent (head name k v st).2.
Proof.
  intros [Htr Hresp]. unfold head. simpl.
  set (t1 := (trace st ++ [EvDeliver name k v])%list).
  set (b0 := node_input_buffer st).
  assert (Hb1 : forall x, buffer_of (lock_section (graph name) name k v b0).2 x
                          = pending x t1).
  { intros x. rewrite lock_section_buffer, buffer_of_store. unfold t1.
    rewrite pending_snoc. simpl. unfold b0. rewrite <- !Htr.
    destruct k as [k | ]; repeat case_decide; repeat case_bool_decide; congruence. }
  assert (Ht1 : readiness_respected t1).
  { apply readiness_respected_snoc; [ done | ]. intros; discriminate. }
  destruct (lock_section (graph name) name k v b0) as [ [ run_inputs | ] b1 ] eqn:Hlock;
    simpl in Hb1; [ | by split ].
  set (arg := if truthy _ then _ else _).
  assert (Harg : forall res, readiness_respected (t1 ++ [EvRun name arg res])).
  { intros res. apply readiness_respected_snoc; [ done | ].
    intros name' arg' res' R [= <- <- <-] HR Hne.
    pose proof (lock_section_required (graph name) name k v b0 R HR Hne) as Hl.
    rewrite Hlock in Hl. simpl in Hl.
    assert (Hbuf : buffer_of (store_input b0 name k v) name = pending name t1).
    { rewrite <- Hb1, <- (lock_section_buffer (graph name) name k v b0), Hlock. done. }
    rewrite Hbuf in Hl.
    destruct (all_present R (pending name t1)) eqn:Hall; [ | discriminate ].
    injection Hl as ->. split; [ by apply all_present_spec | ].
    exists (dict_of_required R (pending name t1)). split.
    - unfold arg. rewrite HR. by destruct R.
    - intros key. apply dict_of_required_lookup. }
  unfold execute. simpl.
  destruct (run (graph name) arg (env st)) as [ w [ result | ] ]; simpl.
  - assert (Hco : coherent
        {| node_input_buffer := <[name := ∅]> b1; env := w;
           trace := t1 ++ [EvRun name arg (Ret result)] |}).
    { split; [ | apply Harg ]. intros x. simpl.
      rewrite buffer_of_insert, pending_snoc. simpl.
      case_decide; case_bool_decide; congruence || apply Hb1. }
    by destruct result.
  - split; [ | apply Harg ]. intros x. simpl. rewrite pending_snoc. simpl. apply Hb1.
Qed.

Lemma finalize_coherent name st w res :
  coherent st ->
  coherent {| node_input_buffer := node_input_buffer st; env := w;
              trace := trace st ++ [EvFinalize name res] |}.
Proof.
  intros [Htr Hresp]. split.
  - intros x. simpl. rewrite pending_snoc. simpl. apply Htr.
  - simpl. apply readiness_respected_snoc; [ done | ]. intros; discriminate.
Qed.

#[local] Instance coherent_preserved_refl :
  Reflexive (fun st st' : state => coherent st -> coherent st').
Proof. by intros st. Qed.

#[local] Instance coherent_preserved_trans :
  Transitive (fun st st' : state => coherent st -> coherent st').
Proof. intros st1 st2 st3 H12 H23 H1. auto. Qed.

Lemma run_node_coherent fuel name k v st :
  coherent st -> coherent (run_node fuel name k v st).2.
Proof.
  apply (run_node_rel (fun st st' => coherent st -> coherent st')).
  intros; by apply head_coherent.
Qed.

Lemma run_pipeline_coherent fuel nodes entry_name input_data wait st :
  coherent st -> coherent (run_pipeline fuel nodes entry_name input_data wait st).2.
Proof.
  apply (run_pipeline_rel (fun st st' => coherent st -> coherent st')).
  - intros; by apply head_coherent.
  - intros; by apply finalize_coherent.
Qed.

(** ** Deliveries that find the node not ready *)

Lemma run_node_not_ready fuel name k v st R key :
  required_inputs (graph name) = Some R -> key ∈ R ->
  buffer_of (store_input (node_input_buffer st) name k v) name !! key = None ->
  run_node (S fuel) name k v st =
  (Done, {| node_input_buffer :=
              (lock_section (graph name) name k v (node_input_buffer st)).2;
            env := env st;
            trace := trace st ++ [EvDeliver name k v] |}).
Proof.
  intros HR Hkey Hnone.
  assert (Hne : R <> []) by (intros ->; by apply elem_of_nil in Hkey).
  pose proof (lock_section_required (graph name) name k v (node_input_buffer st) R HR Hne)
    as Hl.
  destruct (all_present R _) eqn:Hall.
  { rewrite all_present_spec in Hall. apply Hall in Hkey as [x Hx]. congruence. }
  simpl. destruct (lock_section _ _ _ _ _) as [ ready b ]. simpl in Hl. by subst ready.
Qed.

(** ** Flattening the propagation of a mapping *)

Lemma for_each_app {A : Type} (xs ys : list A) body st :
  for_each (xs ++ ys) body st =
  match for_each xs body st with
  | (Done, st') => for_each ys body st'
  | other => other
  end.
Proof.
  revert st. induction xs as [ | x xs IH ]; intros st; simpl; [ done | ].
  destruct (body x st) as [ [ | | ] st1 ]; by rewrite ?IH.
Qed.

Lemma deliver_all_nested deliver children (items : list (string * V)) st :
  for_each children
    (fun c => for_each items (fun '(k, v) => deliver c (Some k) v)) st
  = deliver_all deliver (deliveries children items) st.
Proof.
  unfold deliver_all, deliveries. revert st.
  induction children as [ | c cs IH ]; intros st; [ done | ].
  cbn [for_each mbind list_bind]. rewrite for_each_app.
  assert (Hinner : forall st,
    for_each items (fun '(k, v) => deliver c (Some k) v) st =
    for_each (kv ← items; [(c, kv.1, kv.2)])
             (fun d => deliver d.1.1 (Some d.1.2) d.2) st).
  { clear. induction items as [ | [k v] items IH ]; intros st; [ done | ].
    simpl. destruct (deliver c (Some k) v st) as [ [ | | ] st1 ]; by rewrite ?IH. }
  rewrite <- Hinner.
  destruct (for_each items _ st) as [ [ | | ] st1 ]; by rewrite ?IH.
Qed.

Lemma deliveries_length children (items : list (string * V)) :
  length (deliveries children items) = length items * length children.
Proof.
  unfold deliveries. induction children as [ | c cs IH ]; [ simpl; lia | ].
  rewrite bind_cons, length_app, IH.
  assert (Hlen : length (kv ← items; [(c, kv.1, kv.2)]) = length items).
  { clear. induction items as [ | kv items IH ]; [ done | ].
    rewrite bind_cons. simpl. by rewrite IH. }
  rewrite Hlen. simpl. lia.
Qed.

Lemma deliveries_elem children (items : list (string * V)) c key val :
  (c, key, val) ∈ deliveries children items <-> c ∈ children /\ (key, val) ∈ items.
Proof.
  unfold deliveries. rewrite list_elem_of_bind. split.
  - intros (c' & Hin & Hc). apply list_elem_of_bind in Hin as ([k' v'] & Hin & Hkv).
    apply list_elem_of_singleton in Hin. simpl in Hin. by injection Hin as -> -> ->.
  - intros [Hc Hkv]. exists c. split; [ | done ].
    apply list_elem_of_bind. exists (key, val). split; [ | done ].
    by apply list_elem_of_singleton.
Qed.

Lemma deliveries_NoDup children (items : list (string * V)) :
  NoDup children -> NoDup items.*1 -> NoDup (deliveries children items).
Proof.
  intros Hc Hi. unfold deliveries.
  induction Hc as [ | c cs Hnotin Hcs IH ]; [ constructor | ].
  cbn [mbind list_bind]. apply NoDup_app. split; [ | split ].
  - clear -Hi. induction items as [ | [k v] items IH ]; [ constructor | ].
    simpl in *. apply NoDup_cons in Hi as [Hk Hi]. apply NoDup_cons. split; [ | auto ].
    intros Hin. apply list_elem_of_bind in Hin as ([k' v'] & Hin & Hkv).
    apply list_elem_of_singleton in Hin. simpl in Hin. injection Hin as <- <-.
    apply Hk. apply list_elem_of_fmap. by exists (k, v).
  - intros [ [c' k] v ] Hin1 Hin2.
    apply list_elem_of_bind in Hin1 as ([k1 v1] & Hin1 & _).
    apply list_elem_of_singleton in Hin1. simpl in Hin1. injection Hin1 as -> _ _.
    apply (deliveries_elem cs items c k v) in Hin2 as [Hin2 _]. done.
  - exact IH.
Qed.

(** ** Termination on graphs without cycles *)

Lemma for_each_done {A : Type} (xs : list A) body :
  (forall x st, x ∈ xs -> (body x st).1 = Done) ->
  forall st, (for_each xs body st).1 = Done.
Proof.
  induction xs as [ | x xs IH ]; intros Hbody st; simpl; [ done | ].
  pose proof (Hbody x st (list_elem_of_here _ _)) as Hx.
  destruct (body x st) as [ s st1 ]; simpl in Hx; subst s.
  apply IH. intros y st' Hy. apply Hbody. by right.
Qed.

Lemma job_done o : o.1 = Done -> (job o).1 = Done.
Proof. destruct o as [ [ | | ] st ]; done. Qed.

Lemma head_status name k v st s st' :
  never_raises -> head name k v st = (inl s, st') -> s = Done.
Proof.
  intros [Hrun _]. unfold head.
  destruct (lock_section _ _ _ _ _) as [ [ run_inputs | ] b ]; [ | by intros [= <- _] ].
  unfold execute. simpl.
  match goal with |- context [ run ?nd ?arg ?w ] =>
    pose proof (Hrun name arg w) as Hne; destruct (run nd arg w) as [ w' [ [ r | ] | ] ]
  end; simpl in *; try done; by intros [= <- _].
Qed.

Lemma run_node_done rank :
  acyclic rank -> never_raises ->
  forall fuel name k v st, rank name < fuel -> (run_node fuel name k v st).1 = Done.
Proof.
  intros Hacyclic Hnever. induction fuel as [ | fuel IH ]; intros name k v st Hrank; [ lia | ].
  rewrite run_node_S.
  destruct (head name k v st) as [ [ s | result ] st1 ] eqn:Hhead.
  - simpl. by eapply head_status.
  - unfold propagate. apply for_each_done. intros c st2 Hc.
    assert (Hrc : rank c < fuel) by (specialize (Hacyclic name c Hc); lia).
    destruct result as [ items | items | v' ].
    + apply for_each_done. intros item st3 _. simpl. apply job_done. by apply IH.
    + apply for_each_done. intros [k' v'] st3 _. by apply IH.
    + by apply IH.
Qed.

(** ** What the calls leave in the trace *)

Definition extends (st st' : state) : Prop :=
  exists t, trace st' = trace st ++ t /\ finalized t = [].

#[local] Instance extends_refl : Reflexive extends.
Proof. intros st. exists []. by rewrite app_nil_r. Qed.

#[local] Instance extends_trans : Transitive extends.
Proof.
  intros st1 st2 st3 (t & Ht & Hf) (t' & Ht' & Hf'). exists (t ++ t').
  split; [ by rewrite Ht', Ht, app_assoc | ].
  unfold finalized in *. by rewrite omap_app, Hf, Hf'.
Qed.

Lemma head_extends name k v st : extends st (head name k v st).2.
Proof.
  unfold head. simpl.
  destruct (lock_section _ _ _ _ _) as [ [ run_inputs | ] b ].
  - unfold execute. simpl.
    match goal with |- context [ run ?nd ?arg ?w ] =>
      exists [EvDeliver name k v; EvRun name arg (run nd arg w).2];
      destruct (run nd arg w) as [ w' [ [ r | ] | ] ]
    end; simpl; by rewrite <- app_assoc.
  - by exists [EvDeliver name k v].
Qed.

Lemma run_node_extends fuel name k v st : extends st (run_node fuel name k v st).2.
Proof. apply (run_node_rel extends). apply head_extends. Qed.

Lemma finalized_extends st st' :
  extends st st' -> finalized (trace st') = finalized (trace st).
Proof.
  intros (t & -> & Hf). unfold finalized in *. by rewrite omap_app, Hf, app_nil_r.
Qed.

Lemma finalize_node_finalized fuel name st :
  finalized (trace (finalize_node (run_node fuel) name st).2) =
  finalized (trace st) ++ (if has_finalize name then [name] else []).
Proof.
  unfold finalize_node, has_finalize.
  destruct (finalize (graph name)) as [ fin | ]; [ | by rewrite app_nil_r ].
  destruct (fin (env st)) as [ w res ].
  set (st1 := {| node_input_buffer := _; env := w; trace := _ |}).
  assert (Hst1 : finalized (trace st1) = finalized (trace st) ++ [name]).
  { unfold finalized. simpl. by rewrite omap_app. }
  destruct res as [ [ [ | item items ] | ] | ]; try done.
  rewrite <- Hst1. apply finalized_extends.
  apply (for_each_rel extends). intros c st2 _.
  apply (for_each_rel extends). intros [k v] st3 _. apply run_node_extends.
Qed.

Lemma finalize_loop_finalized fuel nodes st st' :
  for_each nodes (finalize_node (run_node fuel)) st = (Done, st') ->
  finalized (trace st') = finalized (trace st) ++ filter (fun n => has_finalize n) nodes.
Proof.
  revert st. induction nodes as [ | name nodes IH ]; intros st; simpl.
  - intros [= <-]. by rewrite app_nil_r.
  - pose proof (finalize_node_finalized fuel name st) as Hn.
    destruct (finalize_node (run_node fuel) name st) as [ [ | | ] st1 ]; try discriminate.
    intros Hrest. rewrite (IH _ Hrest). simpl in Hn. rewrite Hn, <- app_assoc. f_equal.
    rewrite filter_cons. by destruct (has_finalize name).
Qed.

Lemma finalize_node_done rank :
  acyclic rank -> never_raises ->
  forall fuel name st, (forall n, rank n < fuel) ->
    (finalize_node (run_node fuel) name st).1 = Done.
Proof.
  intros Hacyclic Hnever fuel name st Hrank. unfold finalize_node.
  destruct (finalize (graph name)) as [ fin | ] eqn:Hfin; [ | done ].
  pose proof (proj2 Hnever name fin (env st) Hfin) as Hne.
  destruct (fin (env st)) as [ w [ [ [ | item items ] | ] | ] ]; try done.
  apply for_each_done. intros c st1 _.
  apply for_each_done. intros [k v] st2 _. by eapply run_node_done.
Qed.

(** ** A delivery touches the buffers of the node and of its descendants only *)

Definition same_buffer (x : string) (st st' : state) : Prop :=
  buffer_of (node_input_buffer st') x = buffer_of (node_input_buffer st) x.

#[local] Instance same_buffer_refl x : Reflexive (same_buffer x).
Proof. by intros st. Qed.

#[local] Instance same_buffer_trans x : Transitive (same_buffer x).
Proof. intros st1 st2 st3 H12 H23. unfold same_buffer in *. congruence. Qed.

Lemma head_same_buffer name k v st x :
  x <> name -> same_buffer x st (head name k v st).2.
Proof.
  intros Hx. unfold same_buffer, head. simpl.
  pose proof (lock_section_buffer (graph name) name k v (node_input_buffer st) x) as Hb.
  rewrite buffer_of_store in Hb. rewrite decide_False in Hb by done.
  destruct (lock_section _ _ _ _ _) as [ [ run_inputs | ] b ]; simpl in Hb; [ | done ].
  unfold execute. simpl.
  match goal with |- context [ run ?nd ?arg ?w ] =>
    destruct (run nd arg w) as [ w' [ [ r | ] | ] ]
  end; simpl; rewrite ?buffer_of_insert, ?decide_False by done; done.
Qed.

Lemma run_node_same_buffer rank :
  acyclic rank ->
  forall fuel name k v st x,
    rank name < rank x -> same_buffer x st (run_node fuel name k v st).2.
Proof.
  intros Hacyclic. induction fuel as [ | fuel IH ]; intros name k v st x Hrank.
  - reflexivity.
  - rewrite run_node_S.
    assert (Hx : x <> name) by (intros ->; lia).
    pose proof (head_same_buffer name k v st x Hx) as Hh.
    destruct (head name k v st) as [ [ s | result ] st1 ]; simpl in *; [ done | ].
    etrans; [ exact Hh | ].
    apply (propagate_rel (same_buffer x)). intros c k' v' st2 Hc.
    apply IH. specialize (Hacyclic name c Hc). lia.
Qed.

(** A delivery that finds the node ready calls [run], with [run_inputs]
    when [required_inputs] is non-empty and with [None] otherwise. *)
Lemma run_node_executes fuel name k v st run_inputs b :
  lock_section (graph name) name k v (node_input_buffer st) = (Some run_inputs, b) ->
  exists res t,
    trace (run_node (S fuel) name k v st).2 =
    trace st ++ [EvDeliver name k v;
                 EvRun name (if truthy (required_inputs (graph name))
                             then Some run_inputs else None) res] ++ t.
Proof.
  intros Hlock. rewrite run_node_S.
  set (arg := if truthy _ then _ else _).
  assert (Hhead : exists res st1 o,
    head name k v st = (o, st1) /\
    trace st1 = trace st ++ [EvDeliver name k v; EvRun name arg res]).
  { unfold head. simpl. rewrite Hlock. fold arg.
    unfold execute. simpl.
    destruct (run (graph name) arg (env st)) as [ w [ [ r | ] | ] ]; simpl;
      eexists _, _, _; (split; [ done | ]); simpl; by rewrite <- app_assoc. }
  destruct Hhead as (res & st1 & o & -> & Ht1). exists res.
  destruct o as [ s | result ]; simpl.
  - exists []. by rewrite Ht1.
  - destruct (propagate_rel extends (run_node fuel) (graph name) result
                (fun c k' v' st2 _ => run_node_extends fuel c k' v' st2) st1)
      as (t & Ht & _).
    exists t. by rewrite Ht, Ht1, <- app_assoc.
Qed.

(** ** The properties *)

(** C1. A node with a non-empty [required_inputs] list [R] is run only
    when every key of [R] has been delivered since its last execution, and
    then with exactly the mapping of the keys of [R] to their buffered
    values; a delivery after which a key of [R] is still absent returns
    without running the node. *)
Theorem run_node_readiness :
  (forall fuel nodes entry_name input_data wait w,
     readiness_respected
       (trace (run_pipeline fuel nodes entry_name input_data wait (initial w)).2)) /\
  (forall fuel name k v st R,
     required_inputs (graph name) = Some R -> R <> [] ->
     (forall key, key ∈ R ->
        is_Some (buffer_of (store_input (node_input_buffer st) name k v) name !! key)) ->
     exists run_inputs res t,
       (forall key, run_inputs !! key =
                    if bool_decide (key ∈ R)
                    then buffer_of (store_input (node_input_buffer st) name k v) name !! key
                    else None) /\
       trace (run_node (S fuel) name k v st).2 =
       trace st ++ [EvDeliver name k v; EvRun name (Some run_inputs) res] ++ t) /\
  (forall fuel name k v st R key,
     required_inputs (graph name) = Some R -> key ∈ R ->
     buffer_of (store_input (node_input_buffer st) name k v) name !! key = None ->
     run_node (S fuel) name k v st =
     (Done, {| node_input_buffer :=
                 (lock_section (graph name) name k v (node_input_buffer st)).2;
               env := env st;
               trace := trace st ++ [EvDeliver name k v] |})).
Proof.
  split; [ | split ].
  - intros fuel nodes entry_name input_data wait w.
    apply run_pipeline_coherent, coherent_initial.
  - intros fuel name k v st R HR Hne Hall.
    pose proof (lock_section_required _ name k v (node_input_buffer st) R HR Hne) as Hl.
    apply all_present_spec in Hall. rewrite Hall in Hl.
    destruct (lock_section _ _ _ _ _) as [ ready b ] eqn:Hlock. simpl in Hl. subst ready.
    destruct (run_node_executes fuel name k v st _ b Hlock) as (res & t & Ht).
    assert (Htruthy : truthy (required_inputs (graph name)) = true)
      by (rewrite HR; by destruct R).
    rewrite Htruthy in Ht.
    eexists _, res, t. split; [ | exact Ht ].
    intros key. apply dict_of_required_lookup.
  - intros fuel name k v st R key. apply run_node_not_ready.
Qed.

(** C2, as the code behaves.  For a node whose [required_inputs] is
    empty or absent, every delivery executes the node; the execution input
    computed at line 40 is [{k: v}] for a key [k] and [{}] for a null key,
    but line 55 calls [run] with [None] in both cases: the method never
    receives the one-entry mapping. *)
Theorem run_node_no_required fuel name input_name v st :
  truthy (required_inputs (graph name)) = false ->
  (lock_section (graph name) name input_name v (node_input_buffer st)).1
    = Some (match input_name with None => ∅ | Some k => {[ k := v ]} end) /\
  exists res t,
    trace (run_node (S fuel) name input_name v st).2 =
    trace st ++ [EvDeliver name input_name v; EvRun name None res] ++ t.
Proof.
  intros Hreq.
  pose proof (lock_section_no_required _ name input_name v (node_input_buffer st) Hreq)
    as Hlock.
  split; [ by rewrite Hlock | ].
  destruct (run_node_executes fuel name input_name v st _ _ Hlock) as (res & t & Ht).
  rewrite Hreq in Ht. by exists res, t.
Qed.

(** The deliveries [ds] were issued from [st] one after the other, every
    one of these calls returned, and [st'] is the state after the last. *)
Inductive issued
    (deliver : string -> option string -> V -> state -> status * state)
  : list (string * string * V) -> state -> state -> Prop :=
  | issued_nil (st : state) : issued deliver [] st st
  | issued_cons (c key : string) (val : V) (ds : list (string * string * V))
                (st st1 st2 : state) :
      deliver c (Some key) val st = (Done, st1) ->
      issued deliver ds st1 st2 ->
      issued deliver ((c, key, val) :: ds) st st2.

(** A call of [run_node] that returns has recorded its delivery first. *)
Lemma run_node_returns_records fuel name k v st st' :
  run_node fuel name k v st = (Done, st') ->
  exists t, trace st' = trace st ++ EvDeliver name k v :: t.
Proof.
  destruct fuel as [ | fuel ]; [ discriminate | ].
  intros Hrun.
  assert (Hhead : exists t0, trace (head name k v st).2 = trace st ++ EvDeliver name k v :: t0).
  { unfold head. simpl.
    destruct (lock_section _ _ _ _ _) as [ [ run_inputs | ] b ]; [ | by exists [] ].
    unfold execute. simpl.
    match goal with |- context [ run ?nd ?arg ?w ] =>
      exists [EvRun name arg (run nd arg w).2];
      destruct (run nd arg w) as [ w' [ [ r | ] | ] ]
    end; simpl; by rewrite <- app_assoc. }
  destruct Hhead as [t0 Ht0]. rewrite run_node_S in Hrun.
  destruct (head name k v st) as [ [ s | result ] st1 ]; simpl in Ht0.
  - injection Hrun as _ <-. by exists t0.
  - destruct (propagate_rel extends (run_node fuel) (graph name) result
                (fun c k' v' st2 _ => run_node_extends fuel c k' v' st2) st1)
      as (t & Ht & _).
    rewrite Hrun in Ht. simpl in Ht. exists (t0 ++ t).
    by rewrite Ht, Ht0, <- app_assoc.
Qed.

(** What a sequence of deliveries amounts to: the deliveries before the
    first one that does not return are issued and return; that one, if
    there is one, ends the sequence with its own outcome. *)
Lemma deliver_all_issued deliver ds :
  forall st,
    exists ds1 ds2 mid,
      ds = ds1 ++ ds2 /\ issued deliver ds1 st mid /\
      ((ds2 = [] /\ deliver_all deliver ds st = (Done, mid)) \/
       (exists c key val ds2',
          ds2 = (c, key, val) :: ds2' /\
          deliver c (Some key) val mid = deliver_all deliver ds st /\
          (deliver_all deliver ds st).1 <> Done)).
Proof.
  unfold deliver_all. induction ds as [ | [ [c key] val ] ds IH ]; intros st.
  - exists [], [], st. split; [ done | ]. split; [ constructor | by left ].
  - cbn [for_each fst snd].
    destruct (deliver c (Some key) val st) as [ s st1 ] eqn:Hd.
    destruct s.
    + destruct (IH st1) as (ds1 & ds2 & mid & -> & Hissued & Hrest).
      exists ((c, key, val) :: ds1), ds2, mid. split; [ done | ].
      split; [ by econstructor | exact Hrest ].
    + exists [], ((c, key, val) :: ds), st. split; [ done | ].
      split; [ constructor | ]. right. exists c, key, val, ds. by rewrite Hd.
    + exists [], ((c, key, val) :: ds), st. split; [ done | ].
      split; [ constructor | ]. right. exists c, key, val, ds. by rewrite Hd.
Qed.

Lemma deliver_all_returns deliver ds st st' :
  deliver_all deliver ds st = (Done, st') -> issued deliver ds st st'.
Proof.
  intros Hall.
  destruct (deliver_all_issued deliver ds st) as (ds1 & ds2 & mid & -> & Hissued & Hrest).
  destruct Hrest as [ [-> Hdone] | (c & key & val & ds2' & _ & _ & Hne) ].
  - rewrite app_nil_r in *. rewrite Hall in Hdone. by injection Hdone as ->.
  - by rewrite Hall in Hne.
Qed.

(** The trace of deliveries that were issued and returned: one segment
    for each, in order, that begins with the delivery. *)
Lemma issued_trace fuel ds st st' :
  issued (run_node fuel) ds st st' ->
  exists segs,
    length segs = length ds /\
    trace st' = trace st ++ concat segs /\
    Forall2 (fun d seg => exists t, seg = EvDeliver d.1.1 (Some d.1.2) d.2 :: t) ds segs.
Proof.
  induction 1 as [ st | c key val ds st st1 st2 Hd _ IH ].
  - exists []. by rewrite app_nil_r.
  - destruct IH as (segs & Hlen & Htrace & Hall).
    apply run_node_returns_records in Hd as [t Ht].
    exists ((EvDeliver c (Some key) val :: t) :: segs).
    split; [ simpl; by rewrite Hlen | ].
    split; [ simpl; by rewrite Htrace, Ht, <- !app_assoc | ].
    constructor; [ by exists t | done ].
Qed.

(** C3 (amended). When a node executes and [run] returns a mapping with
    [n] items and the node has [m] children, the engine issues the
    deliveries [deliver(child, k, v)] child by child and, for a child, item
    by item, until one of them does not return: an exception from below is
    not caught and ends the propagation.  When the call returns, it has
    issued exactly [n * m] deliveries, one for each child and each item,
    and the trace shows them in order; on a graph without cycles whose
    nodes do not raise the call returns. *)
Theorem mapping_result_deliveries fuel name k v st run_inputs b w items :
  lock_section (graph name) name k v (node_input_buffer st) = (Some run_inputs, b) ->
  run (graph name)
      (if truthy (required_inputs (graph name)) then Some run_inputs else None)
      (env st) = (w, Ret (Some (PDict items))) ->
  let children := outputs (graph name) in
  let arg := if truthy (required_inputs (graph name)) then Some run_inputs else None in
  let ds := deliveries children items in
  let executed :=
    {| node_input_buffer := <[name := ∅]> b; env := w;
       trace := trace st ++ [EvDeliver name k v;
                             EvRun name arg (Ret (Some (PDict items)))] |} in
  let out := run_node (S fuel) name k v st in
  (exists ds1 ds2 mid,
     ds = ds1 ++ ds2 /\ issued (run_node fuel) ds1 executed mid /\
     ((ds2 = [] /\ out = (Done, mid)) \/
      (exists c key val ds2',
         ds2 = (c, key, val) :: ds2' /\
         run_node fuel c (Some key) val mid = out /\ out.1 <> Done))) /\
  (out.1 = Done ->
   issued (run_node fuel) ds executed out.2 /\
   exists segs,
     length segs = length items * length children /\
     trace out.2 = trace executed ++ concat segs /\
     Forall2 (fun d seg => exists t, seg = EvDeliver d.1.1 (Some d.1.2) d.2 :: t) ds segs) /\
  length ds = length items * length children /\
  (forall c key val, (c, key, val) ∈ ds <-> c ∈ children /\ (key, val) ∈ items) /\
  (NoDup children -> NoDup items.*1 -> NoDup ds) /\
  (forall rank, acyclic rank -> never_raises -> rank name <= fuel -> out.1 = Done).
Proof.
  intros Hlock Hrun children arg ds executed out.
  assert (Hout : out = deliver_all (run_node fuel) ds executed).
  { unfold out, executed. simpl. rewrite Hlock. unfold execute. simpl.
    fold arg in Hrun |- *. rewrite Hrun.
    unfold propagate. rewrite <- app_assoc. apply deliver_all_nested. }
  split; [ | split; [ | split; [ | split; [ | split ] ] ] ].
  - rewrite Hout. apply deliver_all_issued.
  - intros Hdone.
    assert (Hissued : issued (run_node fuel) ds executed out.2).
    { apply deliver_all_returns. rewrite <- Hout.
      destruct out as [ s st' ]. simpl in *. by subst s. }
    split; [ exact Hissued | ].
    destruct (issued_trace fuel ds executed out.2 Hissued) as (segs & Hlen & Htrace & Hall).
    exists segs. split; [ | done ].
    rewrite Hlen. apply deliveries_length.
  - apply deliveries_length.
  - apply deliveries_elem.
  - apply deliveries_NoDup.
  - intros rank Hacyclic Hnever Hrank. eapply run_node_done; [ done .. | lia ].
Qed.

(** C4. With [wait = true], after the initial deliveries the engine
    calls [finalize] on the nodes of [nodes] that have it, in order, and on
    no other node: once each, [nodes] being the keys of a dictionary.  A
    result that is a mapping is delivered item by item to every child of
    the node.  On a graph without cycles whose nodes do not raise the run
    completes. *)
Theorem finalize_phase fuel nodes entry_name input_data st :
  ((run_pipeline fuel nodes entry_name input_data true st).1 = Done ->
   finalized (trace (run_pipeline fuel nodes entry_name input_data true st).2) =
   finalized (trace st) ++ filter (fun n => has_finalize n) nodes) /\
  ((forall name, name ∈ filter (fun n => has_finalize n) nodes <->
                 name ∈ nodes /\ has_finalize name = true) /\
   (NoDup nodes -> NoDup (filter (fun n => has_finalize n) nodes))) /\
  (forall rank,
     acyclic rank -> never_raises -> entry_name ∈ nodes ->
     (forall n, rank n < fuel) ->
     (run_pipeline fuel nodes entry_name input_data true st).1 = Done) /\
  (forall name st1 fin w items,
     finalize (graph name) = Some fin ->
     fin (env st1) = (w, Ret (Some items)) ->
     finalize_node (run_node fuel) name st1 =
     deliver_all (run_node fuel) (deliveries (outputs (graph name)) items)
       {| node_input_buffer := node_input_buffer st1; env := w;
          trace := trace st1 ++ [EvFinalize name (Ret (Some items))] |}).
Proof.
  split; [ | split; [ | split ] ].
  2: { split.
       - intros name. rewrite list_elem_of_filter, Is_true_true. tauto.
       - apply NoDup_filter. }
  - unfold run_pipeline. case_bool_decide; [ | discriminate ].
    set (started := match input_data with Some (_ :: _) => _ | _ => _ end).
    assert (Hstarted : extends st started.2).
    { unfold started. destruct input_data as [ [ | item items ] | ];
        try (rewrite job_state; apply run_node_extends).
      apply (for_each_rel extends). intros [k v] st1 _. simpl.
      rewrite job_state. apply run_node_extends. }
    destruct started as [ [ | | ] st1 ]; try discriminate.
    simpl in Hstarted. apply finalized_extends in Hstarted. rewrite <- Hstarted.
    destruct (for_each nodes _ st1) as [ s st2 ] eqn:Hloop. simpl. intros ->.
    by apply finalize_loop_finalized in Hloop.
  - intros rank Hacyclic Hnever Hentry Hrank.
    unfold run_pipeline. rewrite bool_decide_true by done.
    set (started := match input_data with Some (_ :: _) => _ | _ => _ end).
    assert (Hstarted : started.1 = Done).
    { unfold started. destruct input_data as [ [ | item items ] | ];
        try (apply job_done; by eapply run_node_done).
      apply for_each_done. intros [k v] st1 _. simpl.
      apply job_done. by eapply run_node_done. }
    destruct started as [ s st1 ]. simpl in Hstarted. subst s.
    apply for_each_done. intros name st2 _. by eapply finalize_node_done.
  - intros name st1 fin w items Hfin Hres. unfold finalize_node. rewrite Hfin, Hres.
    destruct items as [ | item items ].
    + unfold deliveries, deliver_all.
      induction (outputs (graph name)) as [ | c cs IH ]; [ done | ].
      by rewrite bind_cons.
    + apply deliver_all_nested.
Qed.

(** C8. When [run] has returned, the input buffer of the node is empty:
    line 61 leaves it empty before anything is propagated, and on a graph
    without cycles it is still empty when the delivery returns. *)
Theorem buffer_reset_after_execution :
  (forall nd name arg st result st',
     execute nd name arg st = (Ret result, st') ->
     node_input_buffer st' !! name = Some ∅) /\
  (forall rank fuel name k v st run_inputs b w result,
     acyclic rank ->
     lock_section (graph name) name k v (node_input_buffer st) = (Some run_inputs, b) ->
     run (graph name)
         (if truthy (required_inputs (graph name)) then Some run_inputs else None)
         (env st) = (w, Ret result) ->
     buffer_of (node_input_buffer (run_node (S fuel) name k v st).2) name = ∅).
Proof.
  split.
  - intros nd name arg st result st'. unfold execute.
    destruct (run nd arg (env st)) as [ w [ r | ] ]; [ | discriminate ].
    intros [= _ <-]. simpl. apply lookup_insert_eq.
  - intros rank fuel name k v st run_inputs b w result Hacyclic Hlock Hrun.
    rewrite run_node_S. unfold head. simpl. rewrite Hlock.
    unfold execute. simpl. rewrite Hrun.
    destruct result as [ result | ]; simpl.
    + match goal with |- context [ propagate _ _ _ ?st2 ] => set (st2' := st2) end.
      assert (Hprop : same_buffer name st2' (propagate (run_node fuel) (graph name) result st2').2).
      { apply (propagate_rel (same_buffer name)). intros c k' v' st3 Hc.
        apply (run_node_same_buffer rank Hacyclic). by apply Hacyclic. }
      unfold same_buffer in Hprop. rewrite Hprop. simpl.
      by rewrite buffer_of_insert, decide_True.
    + by rewrite buffer_of_insert, decide_True.
Qed.

(** C10. For a node with a non-empty [required_inputs] list, a delivery
    with a null key stores nothing in any buffer; when a required key is
    absent the node is not run, the delivered value is dropped and the
    buffers are as they were. *)
Theorem null_key_delivery name v R :
  required_inputs (graph name) = Some R -> R <> [] ->
  (forall b x, buffer_of (lock_section (graph name) name None v b).2 x = buffer_of b x) /\
  (forall fuel st key,
     key ∈ R -> buffer_of (node_input_buffer st) name !! key = None ->
     exists b,
       run_node (S fuel) name None v st =
       (Done, {| node_input_buffer := b; env := env st;
                 trace := trace st ++ [EvDeliver name None v] |}) /\
       forall x, buffer_of b x = buffer_of (node_input_buffer st) x).
Proof.
  intros HR Hne. split.
  - intros b x. by rewrite lock_section_buffer.
  - intros fuel st key Hkey Hnone. eexists. split.
    + by eapply run_node_not_ready.
    + intros x. by rewrite lock_section_buffer.
Qed.

End Engine.

(** ** A pipeline with a join and a deferred node

    [E] is the entry and feeds [M], [N] and [D]; [M] and [N] feed the join
    [J], which needs [data_1] and [data_2] and feeds the sink [K]; [D]
    returns [None] from [run] and emits from [finalize] to [K].  The world
    is the list of the calls that reached node code. *)

Inductive val : Type :=
  | VNone
  | VInt (n : nat).

Definition call_log : Type := list (string * option (gmap string val)).

Definition logging_run (name : string) (result : option (gmap string val) -> option (@payload val))
  : option (gmap string val) -> call_log -> call_log * returned (option (@payload val)) :=
  fun arg w => (w ++ [(name, arg)], Ret (result arg)).

Definition join_result (arg : option (gmap string val)) : option (@payload val) :=
  match arg with
  | Some m =>
      match m !! "data_1", m !! "data_2" with
      | Some (VInt a), Some (VInt b) => Some (PDict [("data", VInt (a + b))])
      | _, _ => None
      end
  | None => None
  end.

Definition demo_graph (name : string) : @node val call_log :=
  if String.eqb name "E" then
    {| required_inputs := None; defer_output := false; outputs := ["M"; "N"; "D"];
       run := logging_run "E" (fun _ => Some (PDict [("go", VInt 0)]));
       finalize := None |}
  else if String.eqb name "M" then
    {| required_inputs := None; defer_output := false; outputs := ["J"];
       run := logging_run "M" (fun _ => Some (PDict [("data_1", VInt 1)]));
       finalize := None |}
  else if String.eqb name "N" then
    {| required_inputs := Some []; defer_output := false; outputs := ["J"];
       run := logging_run "N" (fun _ => Some (PDict [("data_2", VInt 2)]));
       finalize := None |}
  else if String.eqb name "J" then
    {| required_inputs := Some ["data_1"; "data_2"]; defer_output := false;
       outputs := ["K"];
       run := logging_run "J" join_result;
       finalize := None |}
  else if String.eqb name "D" then
    {| required_inputs := None; defer_output := true; outputs := ["K"];
       run := logging_run "D" (fun _ => None);
       finalize :=
         Some (fun w => (w ++ [("D.finalize", None)], Ret (Some [("data", VInt 42)]))) |}
  else
    {| required_inputs := Some ["data"]; defer_output := false; outputs := [];
       run := logging_run name (fun _ => None);
       finalize := None |}.

Definition demo_nodes : list string := ["E"; "M"; "N"; "J"; "D"; "K"].

Definition demo_rank (name : string) : nat :=
  if String.eqb name "E" then 3
  else if String.eqb name "M" then 2
  else if String.eqb name "N" then 2
  else if String.eqb name "J" then 1
  else if String.eqb name "D" then 1
  else 0.

(** A node [P] that returns two items to its only child, which raises. *)
Definition failing_graph (name : string) : @node val call_log :=
  if String.eqb name "P" then
    {| required_inputs := None; defer_output := false; outputs := ["C"];
       run := logging_run "P" (fun _ => Some (PDict [("a", VInt 1); ("b", VInt 2)]));
       finalize := None |}
  else
    {| required_inputs := None; defer_output := false; outputs := [];
       run := fun arg w => (w ++ [(name, arg)], Exn);
       finalize := None |}.

(** The join has received [data_1] and waits for [data_2]. *)
Definition demo_waiting : @state val call_log :=
  {| node_input_buffer := {[ "J" := {[ "data_1" := VInt 1 ]} ]}; env := []; trace := [] |}.

(** Scenarios S2 and S4 of the specification in one run: the join runs
    once, with both keys; the child of the deferred node runs again in the
    finalize phase. *)
Example demo_run :
  let out := run_pipeline VNone demo_graph 4 demo_nodes "E" None true (initial []) in
  out.1 = Done /\
  env out.2 =
    [ ("E", None); ("M", None); ("N", None);
      ("J", Some {[ "data_1" := VInt 1; "data_2" := VInt 2 ]});
      ("K", Some {[ "data" := VInt 3 ]});
      ("D", None); ("D.finalize", None);
      ("K", Some {[ "data" := VInt 42 ]}) ] /\
  finalized (trace out.2) = ["D"] /\
  node_input_buffer out.2 = {[ "E" := ∅; "M" := ∅; "N" := ∅; "J" := ∅; "K" := ∅; "D" := ∅ ]}.
Proof. vm_compute. repeat split; reflexivity. Qed.

Lemma demo_acyclic : acyclic demo_graph demo_rank.
Proof.
  intros name c. unfold demo_graph, demo_rank.
  repeat match goal with
         | |- context [ String.eqb name ?s ] =>
             destruct (String.eqb_spec name s) as [ -> | ? ]; simpl
         end;
    rewrite ?elem_of_cons, ?elem_of_nil; intros H;
    repeat (destruct H as [ -> | H ]); try done; simpl; lia.
Qed.

Lemma demo_never_raises : never_raises demo_graph.
Proof.
  split.
  - intros name arg w. unfold demo_graph.
    by repeat (destruct (String.eqb name _)).
  - intros name fin w. unfold demo_graph.
    repeat (destruct (String.eqb name _)); simpl; try discriminate.
    by intros [= <-].
Qed.

(** ** Instances of the properties on the demonstration pipeline *)

Lemma run_node_readiness_witness :
  required_inputs (demo_graph "J") = Some ["data_1"; "data_2"] /\
  "data_2" ∈ ["data_1"; "data_2"] /\
  run_node demo_graph 1 "J" (Some "data_1") (VInt 1) (initial []) =
  (Done, {| node_input_buffer := {[ "J" := {[ "data_1" := VInt 1 ]} ]}; env := [];
            trace := [EvDeliver "J" (Some "data_1") (VInt 1)] |}).
Proof.
  split; [ reflexivity | ]. split; [ by right; left | ].
  exact (proj2 (proj2 (run_node_readiness VNone demo_graph))
           0 "J" (Some "data_1") (VInt 1) (initial []) ["data_1"; "data_2"] "data_2"
           eq_refl (list_elem_of_further _ _ _ (list_elem_of_here _ _)) eq_refl).
Defined.

Lemma run_node_no_required_witness :
  truthy (required_inputs (demo_graph "M")) = false /\
  (lock_section (demo_graph "M") "M" (Some "go") (VInt 0) ∅).1
    = Some {[ "go" := VInt 0 ]} /\
  env (run_node demo_graph 1 "M" (Some "go") (VInt 0) (initial [])).2 = [("M", None)] /\
  exists res t,
    trace (run_node demo_graph 1 "M" (Some "go") (VInt 0) (initial [])).2 =
    [] ++ [EvDeliver "M" (Some "go") (VInt 0); EvRun "M" None res] ++ t.
Proof.
  split; [ reflexivity | ]. split; [ reflexivity | ]. split; [ reflexivity | ].
  exact (proj2 (run_node_no_required demo_graph 0 "M" (Some "go") (VInt 0) (initial [])
                  eq_refl)).
Defined.

Lemma mapping_result_deliveries_witness :
  (run_node demo_graph 4 "E" None VNone (initial [])).1 = Done /\
  exists segs,
    length segs = 1 * 3 /\
    trace (run_node demo_graph 4 "E" None VNone (initial [])).2 =
      [EvDeliver "E" None VNone; EvRun "E" None (Ret (Some (PDict [("go", VInt 0)])))]
      ++ concat segs /\
    Forall2 (fun d seg => exists t, seg = EvDeliver d.1.1 (Some d.1.2) d.2 :: t)
            [ ("M", "go", VInt 0); ("N", "go", VInt 0); ("D", "go", VInt 0) ] segs.
Proof.
  pose proof (mapping_result_deliveries demo_graph 3 "E" None VNone (initial [])
                ∅ ∅ [("E", None)] [("go", VInt 0)] eq_refl eq_refl) as H.
  cbv zeta in H. destruct H as (_ & Hall & _ & _ & _ & Hdone).
  assert (Hd : (run_node demo_graph 4 "E" None VNone (initial [])).1 = Done).
  { apply (Hdone demo_rank demo_acyclic demo_never_raises). vm_compute. lia. }
  split; [ exact Hd | ]. exact (proj2 (Hall Hd)).
Defined.

(** A delivery that raises ends the propagation: the child [C] of
    [failing_graph] raises on the first of two items, and the second item
    is never delivered. *)
Lemma mapping_result_deliveries_cut_short :
  run_node failing_graph 2 "P" None VNone (initial []) =
    (Raised,
     {| node_input_buffer := {[ "P" := ∅; "C" := {[ "a" := VInt 1 ]} ]};
        env := [("P", None); ("C", None)];
        trace := [ EvDeliver "P" None VNone;
                   EvRun "P" None (Ret (Some (PDict [("a", VInt 1); ("b", VInt 2)])));
                   EvDeliver "C" (Some "a") (VInt 1);
                   EvRun "C" None Exn ] |}) /\
  length [("a", VInt 1); ("b", VInt 2)] * length (outputs (failing_graph "P")) = 2 /\
  ~ issued (run_node failing_graph 1)
      (deliveries (outputs (failing_graph "P")) [("a", VInt 1); ("b", VInt 2)])
      {| node_input_buffer := {[ "P" := ∅ ]}; env := [("P", None)];
         trace := [ EvDeliver "P" None VNone;
                    EvRun "P" None (Ret (Some (PDict [("a", VInt 1); ("b", VInt 2)]))) ] |}
      (run_node failing_graph 2 "P" None VNone (initial [])).2.
Proof.
  split; [ by vm_compute | ]. split; [ reflexivity | ].
  change (deliveries (outputs (failing_graph "P")) [("a", VInt 1); ("b", VInt 2)])
    with [ ("C", "a", VInt 1); ("C", "b", VInt 2) ].
  intros Hissued. inversion Hissued as [ | c key val ds st st1 st2 Hfirst _ ]; subst.
  vm_compute in Hfirst. discriminate.
Qed.

Lemma finalize_phase_witness :
  (run_pipeline VNone demo_graph 4 demo_nodes "E" None true (initial [])).1 = Done /\
  finalized (trace (run_pipeline VNone demo_graph 4 demo_nodes "E" None true (initial [])).2)
    = ["D"].
Proof.
  pose proof (finalize_phase VNone demo_graph 4 demo_nodes "E" None (initial []))
    as (Hcalls & _ & Hdone & _).
  assert (Hd : (run_pipeline VNone demo_graph 4 demo_nodes "E" None true (initial [])).1 = Done).
  { apply (Hdone demo_rank demo_acyclic demo_never_raises).
    - by left.
    - intros n. unfold demo_rank. repeat (destruct (String.eqb n _)); lia. }
  split; [ exact Hd | ]. exact (Hcalls Hd).
Defined.

Lemma buffer_reset_after_execution_witness :
  buffer_of
    (node_input_buffer
       (run_node demo_graph 3 "J" (Some "data_2") (VInt 2) demo_waiting).2) "J" = ∅.
Proof.
  eapply (proj2 (buffer_reset_after_execution demo_graph) demo_rank 2 "J" (Some "data_2")
            (VInt 2) demo_waiting).
  - exact demo_acyclic.
  - reflexivity.
  - reflexivity.
Defined.

Lemma null_key_delivery_witness :
  exists b,
    run_node demo_graph 1 "K" None (VInt 7) (initial []) =
    (Done, {| node_input_buffer := b; env := [];
              trace := [EvDeliver "K" None (VInt 7)] |}) /\
    forall x, buffer_of b x = buffer_of ∅ x.
Proof.
  exact (proj2 (null_key_delivery demo_graph "K" (VInt 7) ["data"] eq_refl
                  (fun H => eq_ind [] (fun l => match l with [] => True | _ => False end)
                                   I _ (eq_sym H)))
           0 (initial []) "data" (list_elem_of_here _ _) eq_refl).
Defined.

End Engine.
